(** * Adversarial communication strategy simulator: the engine of [src/app.js]

    A shallow embedding of the simulation engine (action spaces, channel
    model, rewards, epsilon-greedy agents, the tick and the bounded history)
    and the properties of it that the specification states.

    Conventions of the embedding.
    - A JavaScript number is an exact rational ([Q]); bins, slots, ticks and
      array indices are integers ([Z]).  Rounding, overflow and infinities of
      IEEE doubles are outside the model.
    - A cell of a value table is a [Number]: a rational or [NaN], the value
      that arithmetic on [undefined] (a read past the end of an array)
      produces.
    - The host's [Math] object ([Math.pow], [Math.log2], [Math.log10],
      [Math.random]) is the record [Host]; the successive results of
      [Math.random()] are a tape read through a cursor that every draw
      advances.
    - A property access on [undefined] raises a [TypeError]: the result type
      [Completion] carries it.
    - The presentation layer (DOM, chart, canvas) is not modelled; the
      settings that [readSettings] reads from the DOM are an argument of the
      tick. *)

From Stdlib Require Import ZArith QArith Qround Qminmax Qabs List Bool Lia Lqa.
Import ListNotations.

Local Open Scope Z_scope.

(** ** Constants *)

Definition BINS : Z := 48.
Definition TX_FREQ_SLOTS : Z := 12.

Inductive Modulation := BPSK | QPSK | QAM16.

Definition MODS : list Modulation := [BPSK; QPSK; QAM16].

Definition MOD_EFF (m : Modulation) : Q :=
  match m with BPSK => 1 | QPSK => 2 | QAM16 => 4 end.

Definition TX_POWER_LEVELS : list Q := [0.45; 0.72; 1.0]%Q.
Definition JAM_POWER_LEVELS : list Q := [0.35; 0.65; 1.0]%Q.
Definition JAM_SPANS : list Z := [2; 4; 8; 12].
Definition HISTORY_POINTS : nat := 180.

(** ** Action spaces *)

Record TxAction := mkTxAction { tx_fSlot : Z; tx_mod : Modulation; tx_p : Q }.
Record JamAction := mkJamAction { jam_fSlot : Z; jam_span : Z; jam_p : Q }.

(** [for (let f = 0; f < n; f++)]: the values the loop variable takes. *)
Definition upto (n : Z) : list Z := map Z.of_nat (seq 0 (Z.to_nat n)).

Definition buildActionSpace : list TxAction :=
  flat_map (fun f =>
    flat_map (fun m =>
      map (fun p => mkTxAction f m p) TX_POWER_LEVELS) MODS)
    (upto TX_FREQ_SLOTS).

Definition buildJamActions : list JamAction :=
  flat_map (fun f =>
    flat_map (fun span =>
      map (fun p => mkJamAction f span p) JAM_POWER_LEVELS) JAM_SPANS)
    (upto TX_FREQ_SLOTS).

Definition TX_ACTIONS : list TxAction := Eval cbv in buildActionSpace.
Definition JAM_ACTIONS : list JamAction := Eval cbv in buildJamActions.

(** ** Arrays and value tables *)

Inductive Number := Fin (x : Q) | NaN.

(** [arr[i]]: [None] is [undefined]. *)
Definition aget {A} (arr : list A) (i : Z) : option A :=
  if i <? 0 then None else nth_error arr (Z.to_nat i).

(** [q[i]] in a numeric context: [undefined] converts to [NaN]. *)
Definition qread (q : list Number) (i : Z) : Number :=
  match aget q i with Some v => v | None => NaN end.

(** [q[i] = v].  A write at or past the end extends the array; the holes it
    leaves read as [undefined], hence as [NaN] here.  A negative [i] is not
    an array index and leaves the elements alone. *)
Fixpoint set_nth (q : list Number) (i : nat) (v : Number) : list Number :=
  match q, i with
  | [], O => [v]
  | [], S i' => NaN :: set_nth [] i' v
  | _ :: q', O => v :: q'
  | x :: q', S i' => x :: set_nth q' i' v
  end.

Definition qwrite (q : list Number) (i : Z) (v : Number) : list Number :=
  if i <? 0 then q else set_nth q (Z.to_nat i) v.

(** [table.length = size]: truncates, or extends with holes. *)
Definition setLength (table : list Number) (size : nat) : list Number :=
  firstn size table ++ repeat NaN (size - length table).

Definition initQ (table : list Number) (size : nat) : list Number :=
  fold_left (fun tbl i => qwrite tbl (Z.of_nat i) (Fin 0))
            (seq 0 size) (setLength table size).

(** [a > b] on numbers: false as soon as one side is [NaN]. *)
Definition num_gtb (a b : Number) : bool :=
  match a, b with
  | Fin x, Fin y => if Qlt_le_dec y x then true else false
  | _, _ => false
  end.

(** The loop of [argMax]: [rest] holds the elements from index [i] on. *)
Fixpoint argMax_from (arr rest : list Number) (i best : Z) : Z :=
  match rest with
  | [] => best
  | x :: rest' =>
      argMax_from arr rest' (i + 1)
        (if num_gtb x (qread arr best) then i else best)
  end.

Definition argMax (arr : list Number) : Z := argMax_from arr (tl arr) 1 0.

(** ** Channel model *)

Definition mapFreqSlotToBin (slot : Z) : Z :=
  let binsPerSlot := BINS / TX_FREQ_SLOTS in
  let base := slot * binsPerSlot in
  Z.min (BINS - 1) (base + binsPerSlot / 2).

Definition computeOverlap (txBin jamCenter : Z) (spanBins : Q) : Q :=
  let half := Qfloor (spanBins / 2) in
  let start := Z.max 0 (jamCenter - half) in
  let end_ := Z.min (BINS - 1) (jamCenter + half) in
  if (txBin <? start) || (txBin >? end_) then 0%Q
  else
    let dist := Z.abs (txBin - jamCenter) + 1 in
    Qmax 0 (1 - inject_Z dist / inject_Z (half + 1)).

(** ** Host and control *)

Record Host := mkHost {
  Math_pow : Q -> Q -> Q;
  Math_log2 : Q -> Q;
  Math_log10 : Q -> Q;
  Math_random : nat -> Q    (* the n-th result of [Math.random()] *)
}.

Inductive Completion (A : Type) := Normal (a : A) | TypeError.
Arguments Normal {A} a.
Arguments TypeError {A}.

(** A computation that draws from the random tape: cursor in, cursor out. *)
Definition Rand (A : Type) : Type := nat -> A * nat.

Definition ret {A} (a : A) : Rand A := fun c => (a, c).
Definition bind {A B} (m : Rand A) (k : A -> Rand B) : Rand B :=
  fun c => let (a, c') := m c in k a c'.
Definition random (H : Host) : Rand Q := fun c => (Math_random H c, S c).

Notation "x <- m ;; k" := (bind m (fun x => k))
  (at level 61, m at next level, right associativity).

Definition Qltb (x y : Q) : bool := if Qlt_le_dec x y then true else false.

(** [Math.floor(Math.random() * n)] *)
Definition randomIndex (H : Host) (n : nat) : Rand Z :=
  r <- random H ;; ret (Qfloor (r * inject_Z (Z.of_nat n))).

Definition pickAction (H : Host) (q : list Number) (eps : Q) : Rand Z :=
  r <- random H ;;
  if Qltb r eps then randomIndex H (length q) else ret (argMax q).

Definition linToDb (H : Host) (x : Q) : Q := (10 * Math_log10 H x)%Q.
Definition dbToLin (H : Host) (db : Q) : Q := Math_pow H 10 (db / 10).

(** ** State *)

Record TxLast := mkTxLast { last_txAct : TxAction; last_txBin : Z }.
Record JamLast := mkJamLast {
  last_jamAct : JamAction; last_jamCenter : Z; last_spanBins : Q }.

Record Agent (L : Type) := mkAgent {
  q : list Number; eps : Q; lr : Q; lastAction : option L }.
Arguments mkAgent {L}.
Arguments q {L}.
Arguments eps {L}.
Arguments lr {L}.
Arguments lastAction {L}.

Record TickOutcome := mkTickOutcome {
  h_t : Z;
  h_throughputMbps : Q;
  h_jammingIntensity : Q;
  h_sinrDb : Q;
  h_overlapFactor : Q;
  h_tx : TxLast;
  h_jam : JamLast }.

Record State := mkState {
  t : Z;
  paused : bool;
  freezeLearning : bool;
  jamAdaptive : bool;
  tx : Agent TxLast;
  jam : Agent JamLast;
  history : list TickOutcome }.

(** The literal [state] of the source, before [main] runs. *)
Definition state : State :=
  {| t := 0; paused := false; freezeLearning := false; jamAdaptive := true;
     tx := mkAgent [] 0.08%Q 0.18%Q None;
     jam := mkAgent [] 0.12%Q 0.14%Q None;
     history := [] |}.

Definition set_q {L} (a : Agent L) (q' : list Number) : Agent L :=
  mkAgent q' (eps a) (lr a) (lastAction a).
Definition set_lastAction {L} (a : Agent L) (l : L) : Agent L :=
  mkAgent (q a) (eps a) (lr a) (Some l).

Definition resetSimulation (s : State) : State :=
  {| t := 0;
     paused := false;
     freezeLearning := freezeLearning s;
     jamAdaptive := jamAdaptive s;
     tx := set_q (tx s) (initQ (q (tx s)) (length TX_ACTIONS));
     jam := set_q (jam s) (initQ (q (jam s)) (length JAM_ACTIONS));
     history := [] |}.

Record Settings := mkSettings {
  cfg_snrDb : Q;
  cfg_bwMHz : Q;
  cfg_noiseDensity : Q;
  cfg_jamMaxPower : Q;
  cfg_jamMaxSpan : Q;
  cfg_txMaxPower : Q;
  cfg_lr : Q;
  cfg_eps : Q;
  cfg_freeze : bool;
  cfg_jamAdaptive : bool }.

(** ** One tick *)

(** Lines 146-149: the settings copied into the state. *)
Definition applySettings (cfg : Settings) (s : State) : State :=
  {| t := t s;
     paused := paused s;
     freezeLearning := cfg_freeze cfg;
     jamAdaptive := cfg_jamAdaptive cfg;
     tx := mkAgent (q (tx s)) (cfg_eps cfg) (cfg_lr cfg) (lastAction (tx s));
     jam := jam s;
     history := history s |}.

(** The [const] locals of [stepSimulation], lines 151-177. *)
Record Locals := mkLocals {
  txIdx : Z; txAct : TxAction; jamIdx : Z; jamAct : JamAction;
  txBin : Z; jamCenter : Z; jamSpanBins : Q;
  snrLin : Q; bwHz : Q; noisePower : Q; txPower : Q; jamPower : Q;
  overlapFactor : Q; interference : Q; signal : Q; sinr : Q;
  spectralEff : Q; throughputMbps : Q; jammingIntensity : Q;
  txReward : Q; jamReward : Q }.

Local Open Scope Q_scope.

Definition physics (H : Host) (cfg : Settings)
    (txIdx : Z) (txAct : TxAction) (jamIdx : Z) (jamAct : JamAction) : Locals :=
  let txBin := mapFreqSlotToBin (tx_fSlot txAct) in
  let jamCenter := mapFreqSlotToBin (jam_fSlot jamAct) in
  let jamSpanBins := Qmin (inject_Z (jam_span jamAct)) (cfg_jamMaxSpan cfg) in
  let snrLin := dbToLin H (cfg_snrDb cfg) in
  let bwHz := cfg_bwMHz cfg * 1000000 in
  let noisePower := cfg_noiseDensity cfg * bwHz in
  let txPower := cfg_txMaxPower cfg * tx_p txAct in
  let jamPower := cfg_jamMaxPower cfg * jam_p jamAct in
  let overlapFactor := computeOverlap txBin jamCenter jamSpanBins in
  let interference := jamPower * overlapFactor in
  let signal := txPower * snrLin * MOD_EFF (tx_mod txAct) in
  let sinr := signal / (noisePower + interference + 1) in
  let spectralEff := Math_log2 H (1 + sinr) in
  let throughputMbps := (bwHz / 1000000) * spectralEff in
  let jammingIntensity := interference / (interference + noisePower + 1) in
  let txReward := throughputMbps - 0.02 * txPower - 6 * overlapFactor in
  let jamReward := jammingIntensity * jamPower - 0.08 * throughputMbps in
  mkLocals txIdx txAct jamIdx jamAct txBin jamCenter jamSpanBins
           snrLin bwHz noisePower txPower jamPower
           overlapFactor interference signal sinr
           spectralEff throughputMbps jammingIntensity txReward jamReward.

(** Lines 151-156: the two selections.  The state is the one the settings
    were already copied into. *)
Definition selectTx (H : Host) (s : State) : Rand Z :=
  pickAction H (q (tx s)) (if freezeLearning s then 0 else eps (tx s)).

Definition selectJam (H : Host) (s : State) : Rand Z :=
  if jamAdaptive s
  then pickAction H (q (jam s)) (if freezeLearning s then 0 else eps (jam s))
  else randomIndex H (length JAM_ACTIONS).

Definition stepLocals (H : Host) (cfg : Settings) (s : State)
    : Rand (Completion Locals) :=
  txIdx <- selectTx H s ;;
  jamIdx <- selectJam H s ;;
  ret (match aget TX_ACTIONS txIdx, aget JAM_ACTIONS jamIdx with
       | Some txAct, Some jamAct => Normal (physics H cfg txIdx txAct jamIdx jamAct)
       | _, _ => TypeError
       end).

(** [c += lr * (reward - c)] on a cell. *)
Definition td (lr reward : Q) (c : Number) : Number :=
  match c with Fin x => Fin (x + lr * (reward - x)) | NaN => NaN end.

(** Lines 179-184. *)
Definition learn (s : State) (l : Locals) : State :=
  if freezeLearning s then s
  else
    let tx' := set_q (tx s)
      (qwrite (q (tx s)) (txIdx l)
         (td (lr (tx s)) (txReward l) (qread (q (tx s)) (txIdx l)))) in
    let jam' :=
      if jamAdaptive s
      then set_q (jam s)
        (qwrite (q (jam s)) (jamIdx l)
           (td (lr (jam s)) (jamReward l) (qread (q (jam s)) (jamIdx l))))
      else jam s in
    {| t := t s; paused := paused s; freezeLearning := freezeLearning s;
       jamAdaptive := jamAdaptive s; tx := tx'; jam := jam';
       history := history s |}.

Definition outcomeOf (H : Host) (tick : Z) (l : Locals) : TickOutcome :=
  {| h_t := tick;
     h_throughputMbps := throughputMbps l;
     h_jammingIntensity := jammingIntensity l;
     h_sinrDb := linToDb H (sinr l);
     h_overlapFactor := overlapFactor l;
     h_tx := mkTxLast (txAct l) (txBin l);
     h_jam := mkJamLast (jamAct l) (jamCenter l) (jamSpanBins l) |}.

(** [history.push(e); if (history.length > HISTORY_POINTS) history.shift()] *)
Definition pushBounded (hist : list TickOutcome) (e : TickOutcome)
    : list TickOutcome :=
  let hist' := hist ++ [e] in
  if (HISTORY_POINTS <? length hist')%nat then tl hist' else hist'.

(** Lines 186-200. *)
Definition record (H : Host) (s : State) (l : Locals) : State :=
  let e := outcomeOf H (t s) l in
  {| t := (t s + 1)%Z;
     paused := paused s;
     freezeLearning := freezeLearning s;
     jamAdaptive := jamAdaptive s;
     tx := set_lastAction (tx s) (h_tx e);
     jam := set_lastAction (jam s) (h_jam e);
     history := pushBounded (history s) e |}.

Definition stepSimulation (H : Host) (cfg : Settings) (s : State)
    : Rand (Completion State) :=
  let s1 := applySettings cfg s in
  r <- stepLocals H cfg s1 ;;
  ret (match r with
       | Normal l => Normal (record H (learn s1 l) l)
       | TypeError => TypeError
       end).

(** The locals of a tick that starts from [s] with settings [cfg]. *)
Definition tickLocals (H : Host) (cfg : Settings) (s : State) (c : nat)
    : Completion Locals :=
  fst (stepLocals H cfg (applySettings cfg s) c).

(** Ticks in sequence, one settings record per tick; the first
    [TypeError] ends the run. *)
Fixpoint run (H : Host) (cfgs : list Settings) (s : State)
    : Rand (Completion State) :=
  match cfgs with
  | [] => ret (Normal s)
  | cfg :: rest =>
      r <- stepSimulation H cfg s ;;
      match r with
      | Normal s' => run H rest s'
      | TypeError => ret TypeError
      end
  end.

(** ** The other handlers that write to the engine state *)

(** The "mutate" button: [q[i] = (Math.random() - 0.5) * 4] for every [i]. *)
Fixpoint perturb (H : Host) (n : nat) (i : Z) (tbl : list Number)
    : Rand (list Number) :=
  match n with
  | O => ret tbl
  | S n' =>
      r <- random H ;;
      perturb H n' (i + 1)%Z (qwrite tbl i (Fin ((r - 0.5) * 4)))
  end.

Definition mutateJammer (H : Host) (s : State) : Rand State :=
  tbl <- perturb H (length (q (jam s))) 0%Z (q (jam s)) ;;
  ret {| t := t s; paused := paused s; freezeLearning := freezeLearning s;
         jamAdaptive := jamAdaptive s; tx := tx s;
         jam := set_q (jam s) tbl; history := history s |}.

Definition togglePause (s : State) : State :=
  {| t := t s; paused := negb (paused s); freezeLearning := freezeLearning s;
     jamAdaptive := jamAdaptive s; tx := tx s; jam := jam s;
     history := history s |}.

Definition setFreeze (b : bool) (s : State) : State :=
  {| t := t s; paused := paused s; freezeLearning := b;
     jamAdaptive := jamAdaptive s; tx := tx s; jam := jam s;
     history := history s |}.

Definition setJamAdaptive (b : bool) (s : State) : State :=
  {| t := t s; paused := paused s; freezeLearning := freezeLearning s;
     jamAdaptive := b; tx := tx s; jam := jam s; history := history s |}.

(** The states the page can be in: [main] resets the literal [state], and
    from then on the timer and the handlers act.  The timer skips the tick
    while [paused] is set; ticks are allowed here in every state, which only
    adds states. *)
Inductive reachable (H : Host) : State -> Prop :=
| reach_main : reachable H (resetSimulation state)
| reach_restart s : reachable H s -> reachable H (resetSimulation s)
| reach_tick s cfg c s' c' :
    reachable H s ->
    stepSimulation H cfg s c = (Normal s', c') ->
    reachable H s'
| reach_mutate s c : reachable H s -> reachable H (fst (mutateJammer H s c))
| reach_pause s : reachable H s -> reachable H (togglePause s)
| reach_freeze s b : reachable H s -> reachable H (setFreeze b s)
| reach_adaptive s b : reachable H s -> reachable H (setJamAdaptive b s).

(** The contract of [Math.random]: every draw is in [0, 1). *)
Definition unit_tape (H : Host) : Prop :=
  forall n, 0 <= Math_random H n /\ Math_random H n < 1.

(** The integer logarithm: the number of times [x] can be divided by [b]
    before it drops below [b]. *)
Fixpoint ilog_fuel (fuel : nat) (b x : Z) : Z :=
  match fuel with
  | O => 0%Z
  | S fuel' => if (x <? b)%Z then 0%Z else (1 + ilog_fuel fuel' b (x / b))%Z
  end.

Definition ilog (b x : Z) : Z := ilog_fuel (Z.to_nat (Z.log2 x)) b x.

(** A host for concrete evaluation: a power is taken at the floor of the
    exponent (exact at integer exponents), a logarithm is the integer
    logarithm of the floor of its argument (exact at powers of the base),
    and every draw is 3/10. *)
Definition sampleHost : Host :=
  {| Math_pow := fun b e => Qpower b (Qfloor e);
     Math_log2 := fun x => inject_Z (ilog 2 (Qfloor x));
     Math_log10 := fun x => inject_Z (ilog 10 (Qfloor x));
     Math_random := fun _ => 0.3 |}.

(** Settings for concrete evaluation. *)
Definition sampleSettings : Settings :=
  {| cfg_snrDb := 20; cfg_bwMHz := 20; cfg_noiseDensity := 0.000001;
     cfg_jamMaxPower := 30; cfg_jamMaxSpan := 8; cfg_txMaxPower := 20;
     cfg_lr := 0.18; cfg_eps := 0.5; cfg_freeze := false;
     cfg_jamAdaptive := true |}.

Definition frozenSettings : Settings :=
  {| cfg_snrDb := 20; cfg_bwMHz := 20; cfg_noiseDensity := 0.000001;
     cfg_jamMaxPower := 30; cfg_jamMaxSpan := 8; cfg_txMaxPower := 20;
     cfg_lr := 0.18; cfg_eps := 0.5; cfg_freeze := true;
     cfg_jamAdaptive := true |}.

(** A state whose tables already hold something: one learning tick after a
    reset. *)
Definition warmState : State :=
  match fst (stepSimulation sampleHost sampleSettings (resetSimulation state)
               0%nat)
  with Normal s => s | TypeError => state end.

Definition randomJammerSettings : Settings :=
  {| cfg_snrDb := 20; cfg_bwMHz := 20; cfg_noiseDensity := 0.000001;
     cfg_jamMaxPower := 30; cfg_jamMaxSpan := 8; cfg_txMaxPower := 20;
     cfg_lr := 0.18; cfg_eps := 0.5; cfg_freeze := false;
     cfg_jamAdaptive := false |}.

Definition silentSettings : Settings :=
  {| cfg_snrDb := 20; cfg_bwMHz := 20; cfg_noiseDensity := 0.000001;
     cfg_jamMaxPower := 30; cfg_jamMaxSpan := 8; cfg_txMaxPower := 0;
     cfg_lr := 0.18; cfg_eps := 0.5; cfg_freeze := false;
     cfg_jamAdaptive := true |}.

Definition with_lr (cfg : Settings) (x : Q) : Settings :=
  {| cfg_snrDb := cfg_snrDb cfg; cfg_bwMHz := cfg_bwMHz cfg;
     cfg_noiseDensity := cfg_noiseDensity cfg;
     cfg_jamMaxPower := cfg_jamMaxPower cfg;
     cfg_jamMaxSpan := cfg_jamMaxSpan cfg;
     cfg_txMaxPower := cfg_txMaxPower cfg;
     cfg_lr := x; cfg_eps := cfg_eps cfg; cfg_freeze := cfg_freeze cfg;
     cfg_jamAdaptive := cfg_jamAdaptive cfg |}.

(** ** Notions the properties are stated with *)

(** The specification's reading of [resolveFrequency]: the bins are cut into
    [TX_FREQ_SLOTS] segments of [BINS / TX_FREQ_SLOTS] bins each (floor
    division), and a slot resolves to the midpoint bin of its segment, no
    higher than the last bin. *)
Definition spec_segment (slot : Z) : Z * Z :=
  let width := (BINS / TX_FREQ_SLOTS)%Z in
  ((slot * width)%Z, ((slot + 1) * width - 1)%Z).

Definition spec_midpoint (seg : Z * Z) : Z :=
  let (lo, hi) := seg in (lo + (hi - lo + 1) / 2)%Z.

Definition spec_resolveFrequency (slot : Z) : Z :=
  Z.min (BINS - 1) (spec_midpoint (spec_segment slot)).

(** Both value tables are no longer than their action spaces.  It holds after
    a reset (the lengths are then equal) and in the literal initial state
    (both tables empty), and every tick keeps it. *)
Definition tables_fit (s : State) : Prop :=
  (length (q (tx s)) <= length TX_ACTIONS)%nat
  /\ (length (q (jam s)) <= length JAM_ACTIONS)%nat.

(** The jammer's own rates are constants of the page: nothing assigns them. *)
Definition jam_rates_fixed (s : State) : Prop :=
  eps (jam s) = 0.12 /\ lr (jam s) = 0.14.

(** The tick numbers a history holds. *)
Definition ticks (s : State) : list Z := map h_t (history s).

(** The last [HISTORY_POINTS] of the tick numbers 0 .. n-1. *)
Definition window (n : nat) : list Z :=
  map Z.of_nat (seq (n - Nat.min n HISTORY_POINTS) (Nat.min n HISTORY_POINTS)).

(** ** What the renderers read *)

(** [arr.slice(-n)]: the last [n] elements, or all of them if there are
    fewer. *)
Definition sliceLast {A} (n : nat) (arr : list A) : list A :=
  skipn (length arr - n) arr.

(** [renderTimeline], lines 313-314: the entries it makes rows of, in row
    order ([state.history.slice(-20).reverse()]). *)
Definition timelineRows (s : State) : list TickOutcome :=
  rev (sliceLast 20 (history s)).

(** [for (let b = start; b <= end; b++)]: the values of [b]. *)
Definition fromTo (start end_ : Z) : list Z :=
  map (fun k => (start + Z.of_nat k)%Z) (seq 0 (Z.to_nat (end_ - start + 1))).

(** [drawSpectrum], lines 281-292: the bins the jammer heat is painted on,
    each with the alpha of its fill style. *)
Definition spectrumHeat (jamCenter : Z) (span : Q) : list (Z * Q) :=
  let half := Qfloor (span / 2) in
  let start := (jamCenter - half)%Z in
  let end_ := (jamCenter + half)%Z in
  flat_map (fun b =>
      if ((b <? 0) || (b >=? BINS))%Z then []
      else [(b, 0.1 + computeOverlap b jamCenter span * 0.55)])
    (fromTo start end_).

(** [drawSpectrum], lines 281-283 and 299: whether the white overlap
    highlight is painted over the transmitter's marker. *)
Definition spectrumHighlight (txBin jamCenter : Z) (span : Q) : bool :=
  let half := Qfloor (span / 2) in
  let start := (jamCenter - half)%Z in
  let end_ := (jamCenter + half)%Z in
  ((txBin >=? start) && (txBin <=? end_))%Z.

(** A history entry as a renderer expects it: its actions are members of the
    action spaces, its bins are the resolved slots and lie on the channel,
    and its overlap is the overlap of those bins. *)
Definition outcome_ok (e : TickOutcome) : Prop :=
  In (last_txAct (h_tx e)) TX_ACTIONS
  /\ In (last_jamAct (h_jam e)) JAM_ACTIONS
  /\ last_txBin (h_tx e) = mapFreqSlotToBin (tx_fSlot (last_txAct (h_tx e)))
  /\ last_jamCenter (h_jam e)
     = mapFreqSlotToBin (jam_fSlot (last_jamAct (h_jam e)))
  /\ (0 <= last_txBin (h_tx e) < BINS)%Z
  /\ (0 <= last_jamCenter (h_jam e) < BINS)%Z
  /\ h_overlapFactor e
     = computeOverlap (last_txBin (h_tx e)) (last_jamCenter (h_jam e))
         (last_spanBins (h_jam e)).

(** The value the "mutate" button writes for the draw [r]. *)
Definition mutated (r : Q) : Q := (r - 0.5) * 4.

(** A host whose [Math.pow] returns 0, as the real one does for
    [Math.pow(10, x)] once [x] is below about -324. *)
Definition underflowHost : Host :=
  {| Math_pow := fun _ _ => 0;
     Math_log2 := Math_log2 sampleHost;
     Math_log10 := Math_log10 sampleHost;
     Math_random := Math_random sampleHost |}.

(** ** The DOM and the page *)

(** The [dom] object: [None] while it is still [{}] ([setupDomRefs] has not
    run), else the numbers and flags its input elements hold.  An input whose
    text is not a number is outside the model. *)
Definition Dom : Type := option Settings.

(** [readSettings()]: [dom.snrInput.value] on the empty [dom] is a property
    access on [undefined]. *)
Definition readSettings (dom : Dom) : Completion Settings :=
  match dom with Some cfg => Normal cfg | None => TypeError end.

(** [stepSimulation()] from its first line: line 145 reads the settings from
    the DOM, then the tick above runs.  The state is global, so the result
    says what it is after a throw as well: untouched when [readSettings]
    throws, with the settings copied in (lines 146-149) when an action lookup
    throws. *)
Definition stepSimulationDom (H : Host) (dom : Dom) (s : State)
    : Rand (Completion unit * State) :=
  match readSettings dom with
  | TypeError => ret (TypeError, s)
  | Normal cfg =>
      r <- stepSimulation H cfg s ;;
      ret (match r with
           | Normal s' => (Normal tt, s')
           | TypeError => (TypeError, applySettings cfg s)
           end)
  end.

(** The page: before [main] the DOM object is empty and the state is the
    literal one; [main] sets up the references and resets back to back, and
    only then starts the timer and attaches the handlers, so from then on
    the references exist (whatever the inputs hold) and the state is one of
    [reachable]. *)
Inductive page (H : Host) : Dom -> State -> Prop :=
| page_loading : page H None state
| page_live cfg s : reachable H s -> page H (Some cfg) s.

(** ** Rounding of the index product *)

(** [Math.random() * n] is rounded to a representable number before
    [Math.floor] sees it.  What an index needs of that rounding, for products
    in [0, 144]: it is monotone, it keeps the integers, and it moves a value
    by at most [err]. *)
Definition rounds_within (err : Q) (fl : Q -> Q) : Prop :=
  (forall x y, x <= y -> fl x <= fl y)
  /\ (forall k : Z, (0 <= k <= 144)%Z -> fl (inject_Z k) == inject_Z k)
  /\ (forall x, 0 <= x -> x <= 144 -> fl x <= x + err /\ x - err <= fl x).

(** A bound on the rounding error of a product below 144 (half a unit in the
    last place there is below 1.5e-14), and the margin it leaves at the edge
    of a cell of draws. *)
Definition roundErr : Q := 1 # 10000000000000.
Definition cellEdge : Q := 1 # 1000000000000000.

(** * Properties *)

(** ** Arrays *)

Lemma TX_ACTIONS_length : length TX_ACTIONS = 108%nat.
Proof. reflexivity. Qed.

Lemma JAM_ACTIONS_length : length JAM_ACTIONS = 144%nat.
Proof. reflexivity. Qed.

Lemma aget_Some {A} (arr : list A) (i : Z) :
  (0 <= i < Z.of_nat (length arr))%Z -> exists a, aget arr i = Some a.
Proof.
  intros Hi. unfold aget.
  destruct (Z.ltb_spec i 0); [lia|].
  destruct (nth_error arr (Z.to_nat i)) eqn:E; [eauto|].
  apply nth_error_None in E. lia.
Qed.

Lemma aget_In {A} (arr : list A) (i : Z) (a : A) :
  aget arr i = Some a -> In a arr.
Proof.
  unfold aget. destruct (i <? 0)%Z; [discriminate|]. apply nth_error_In.
Qed.

Lemma set_nth_length (l : list Number) (i : nat) (v : Number) :
  length (set_nth l i v) = Nat.max (length l) (S i).
Proof.
  revert i; induction l as [|x l IH]; intros i.
  - induction i as [|i IHi]; simpl in *; [reflexivity|]. rewrite IHi. lia.
  - destruct i; simpl; [lia|]. rewrite IH. lia.
Qed.

Lemma set_nth_middle (l1 l2 : list Number) (x v : Number) :
  set_nth (l1 ++ x :: l2) (length l1) v = l1 ++ v :: l2.
Proof. induction l1 as [|y l1 IH]; simpl; [reflexivity|now rewrite IH]. Qed.

Lemma qwrite_length (l : list Number) (i : Z) (v : Number) :
  (0 <= i)%Z -> length (qwrite l i v) = Nat.max (length l) (S (Z.to_nat i)).
Proof.
  intros Hi. unfold qwrite. destruct (Z.ltb_spec i 0); [lia|].
  apply set_nth_length.
Qed.

Lemma setLength_length (table : list Number) (size : nat) :
  length (setLength table size) = size.
Proof.
  unfold setLength. rewrite length_app, length_firstn, repeat_length. lia.
Qed.

Lemma zero_fill (k : nat) : forall l1 l2 : list Number,
  length l2 = k ->
  fold_left (fun tbl i => qwrite tbl (Z.of_nat i) (Fin 0))
            (seq (length l1) k) (l1 ++ l2)
  = l1 ++ repeat (Fin 0) k.
Proof.
  induction k as [|k IH]; intros l1 l2 Hl.
  - destruct l2; [reflexivity|discriminate].
  - destruct l2 as [|x l2]; [discriminate|]. simpl in Hl. simpl.
    unfold qwrite at 2. destruct (Z.ltb_spec (Z.of_nat (length l1)) 0); [lia|].
    rewrite Nat2Z.id, set_nth_middle.
    replace (l1 ++ Fin 0 :: l2) with ((l1 ++ [Fin 0]) ++ l2)
      by (now rewrite <- app_assoc).
    replace (S (length l1)) with (length (l1 ++ [Fin 0]))
      by (rewrite length_app; simpl; lia).
    rewrite IH by lia. now rewrite <- app_assoc.
Qed.

(** [initQ] leaves a table of [size] zeros, whatever the table held. *)
Lemma initQ_zeros (table : list Number) (size : nat) :
  initQ table size = repeat (Fin 0) size.
Proof.
  unfold initQ.
  apply (zero_fill size [] (setLength table size)), setLength_length.
Qed.

(** ** Selection *)

Lemma argMax_from_range (arr rest : list Number) : forall i best,
  (0 <= best < i)%Z ->
  (0 <= argMax_from arr rest i best < i + Z.of_nat (length rest))%Z.
Proof.
  induction rest as [|x rest IH]; intros i best Hb;
    cbn [argMax_from length]; [simpl; lia|].
  rewrite Nat2Z.inj_succ.
  destruct (num_gtb x (qread arr best)).
  - assert (Hi : (0 <= i < i + 1)%Z) by lia.
    pose proof (IH _ _ Hi). lia.
  - assert (Hi : (0 <= best < i + 1)%Z) by lia.
    pose proof (IH _ _ Hi). lia.
Qed.

Lemma argMax_range (arr : list Number) :
  (0 <= argMax arr < Z.max 1 (Z.of_nat (length arr)))%Z.
Proof.
  unfold argMax.
  assert (H01 : (0 <= 0 < 1)%Z) by lia.
  pose proof (argMax_from_range arr (tl arr) 1 0 H01) as P.
  destruct arr as [|x arr]; cbn [tl length] in *;
    [|rewrite Nat2Z.inj_succ]; lia.
Qed.

Lemma floor_scale_range (r : Q) (n : nat) :
  0 <= r -> r < 1 ->
  (0 <= Qfloor (r * inject_Z (Z.of_nat n)) < Z.max 1 (Z.of_nat n))%Z.
Proof.
  intros H0 H1.
  assert (Hn : 0 <= inject_Z (Z.of_nat n)).
  { change 0 with (inject_Z 0). rewrite <- Zle_Qle. lia. }
  split.
  - change 0%Z with (Qfloor 0). apply Qfloor_resp_le.
    apply Qmult_le_0_compat; assumption.
  - destruct n as [|n].
    + assert (E : r * inject_Z (Z.of_nat 0) == 0) by (simpl; ring).
      rewrite E. change (Qfloor 0) with 0%Z. lia.
    + assert (Hlt : r * inject_Z (Z.of_nat (S n)) < inject_Z (Z.of_nat (S n))).
      { rewrite <- (Qmult_1_l (inject_Z (Z.of_nat (S n)))) at 2.
        apply Qmult_lt_compat_r; [|assumption].
        change 0 with (inject_Z 0). rewrite <- Zlt_Qlt. lia. }
      pose proof (Qfloor_le (r * inject_Z (Z.of_nat (S n)))) as Hf.
      assert (Hz : inject_Z (Qfloor (r * inject_Z (Z.of_nat (S n))))
                   < inject_Z (Z.of_nat (S n)))
        by (eapply Qle_lt_trans; eassumption).
      rewrite <- Zlt_Qlt in Hz. lia.
Qed.

Lemma randomIndex_range (H : Host) (n : nat) (c : nat) :
  unit_tape H ->
  (0 <= fst (randomIndex H n c) < Z.max 1 (Z.of_nat n))%Z.
Proof.
  intros U. unfold randomIndex, bind, random, ret. simpl.
  destruct (U c). now apply floor_scale_range.
Qed.

Lemma pickAction_range (H : Host) (tbl : list Number) (e : Q) (c : nat) :
  unit_tape H ->
  (0 <= fst (pickAction H tbl e c) < Z.max 1 (Z.of_nat (length tbl)))%Z.
Proof.
  intros U. unfold pickAction, bind, random.
  destruct (Qltb (Math_random H c) e).
  - now apply randomIndex_range.
  - apply argMax_range.
Qed.

(** With exploration rate 0 the selection is the greedy one. *)
Lemma pickAction_greedy (H : Host) (tbl : list Number) (c : nat) :
  unit_tape H -> pickAction H tbl 0 c = (argMax tbl, S c).
Proof.
  intros U. unfold pickAction, bind, random, Qltb.
  destruct (Qlt_le_dec (Math_random H c) 0) as [Hlt|]; [|reflexivity].
  destruct (U c) as [Hge _]. exfalso. exact (Qlt_not_le _ _ Hlt Hge).
Qed.

(** ** Frequency resolution *)

(** C7.  For every slot in [0, TX_FREQ_SLOTS) the resolved bin is the midpoint
    bin of the slot's segment under floor division of BINS by TX_FREQ_SLOTS,
    clamped to the last bin; it lies inside the segment; slot 0 resolves to
    bin 2 and slot 5 to bin 22. *)
Theorem mapFreqSlotToBin_midpoint (slot : Z) :
  (0 <= slot < TX_FREQ_SLOTS)%Z ->
  mapFreqSlotToBin slot = spec_resolveFrequency slot
  /\ (fst (spec_segment slot) <= mapFreqSlotToBin slot
      <= snd (spec_segment slot))%Z
  /\ (0 <= mapFreqSlotToBin slot <= BINS - 1)%Z
  /\ (BINS / TX_FREQ_SLOTS)%Z = 4%Z
  /\ mapFreqSlotToBin 0 = 2%Z
  /\ mapFreqSlotToBin 5 = 22%Z.
Proof.
  intros Hs.
  unfold mapFreqSlotToBin, spec_resolveFrequency, spec_midpoint, spec_segment.
  unfold BINS, TX_FREQ_SLOTS in *.
  change (48 / 12)%Z with 4%Z. cbn [fst snd].
  replace ((slot + 1) * 4 - 1 - slot * 4 + 1)%Z with 4%Z by lia.
  change (4 / 2)%Z with 2%Z.
  repeat split; try reflexivity; lia.
Qed.

Lemma mapFreqSlotToBin_midpoint_witness :
  (0 <= 11 < TX_FREQ_SLOTS)%Z /\ mapFreqSlotToBin 11 = 46%Z.
Proof.
  assert (Hs : (0 <= 11 < TX_FREQ_SLOTS)%Z) by (unfold TX_FREQ_SLOTS; lia).
  split; [exact Hs|].
  destruct (mapFreqSlotToBin_midpoint 11 Hs) as [E _].
  rewrite E. reflexivity.
Defined.

(** ** Overlap *)

Section Overlap.

Variables (txBin jamCenter : Z) (spanBins : Q).

(** Outside the jammed interval the overlap is 0. *)
Lemma computeOverlap_outside :
  (Z.abs (txBin - jamCenter) > Qfloor (spanBins / 2))%Z ->
  computeOverlap txBin jamCenter spanBins = 0.
Proof.
  intros Hd. unfold computeOverlap.
  set (half := Qfloor (spanBins / 2)) in *.
  destruct (Z.ltb_spec txBin (Z.max 0 (jamCenter - half))); [reflexivity|].
  destruct (Z.gtb_spec txBin (Z.min (BINS - 1) (jamCenter + half)));
    [now rewrite orb_true_r|].
  lia.
Qed.

(** Inside it, the value is the triangular weight, and the distance term
    [dist / (half + 1)] is in (0, 1]. *)
Lemma computeOverlap_inside :
  (Z.abs (txBin - jamCenter) <= Qfloor (spanBins / 2))%Z ->
  (0 <= txBin < BINS)%Z ->
  let x := inject_Z (Z.abs (txBin - jamCenter) + 1)
           / inject_Z (Qfloor (spanBins / 2) + 1) in
  computeOverlap txBin jamCenter spanBins = Qmax 0 (1 - x)
  /\ 0 < x /\ x <= 1.
Proof.
  intros Hd Hb x. subst x. unfold computeOverlap.
  set (half := Qfloor (spanBins / 2)) in *. split.
  - destruct (Z.ltb_spec txBin (Z.max 0 (jamCenter - half))); [lia|].
    destruct (Z.gtb_spec txBin (Z.min (BINS - 1) (jamCenter + half)));
      [unfold BINS in *; lia|].
    reflexivity.
  - assert (Hpos : 0 < inject_Z (half + 1)).
    { change 0 with (inject_Z 0). rewrite <- Zlt_Qlt. lia. }
    split.
    + apply Qlt_shift_div_l; [exact Hpos|].
      rewrite Qmult_0_l. change 0 with (inject_Z 0). rewrite <- Zlt_Qlt. lia.
    + apply Qle_shift_div_r; [exact Hpos|].
      rewrite Qmult_1_l, <- Zle_Qle. lia.
Qed.

Lemma computeOverlap_bounds :
  (0 <= txBin < BINS)%Z ->
  0 <= computeOverlap txBin jamCenter spanBins
  /\ computeOverlap txBin jamCenter spanBins < 1.
Proof.
  intros Hb.
  destruct (Z_le_gt_dec (Z.abs (txBin - jamCenter)) (Qfloor (spanBins / 2)))
    as [Hin|Hout].
  - destruct (computeOverlap_inside Hin Hb) as (E & Hx0 & Hx1).
    rewrite E. split.
    + apply Q.le_max_l.
    + apply Q.max_lub_lt; lra.
  - rewrite (computeOverlap_outside Hout). split; lra.
Qed.

End Overlap.

(** At the centre of a non-empty jammed interval the weight is
    [half / (half + 1)]. *)
Lemma computeOverlap_centre (jamCenter : Z) (spanBins : Q) :
  (0 <= jamCenter < BINS)%Z ->
  (0 <= Qfloor (spanBins / 2))%Z ->
  computeOverlap jamCenter jamCenter spanBins
  == inject_Z (Qfloor (spanBins / 2)) / inject_Z (Qfloor (spanBins / 2) + 1).
Proof.
  intros Hb Hh.
  assert (Hin : (Z.abs (jamCenter - jamCenter) <= Qfloor (spanBins / 2))%Z)
    by (rewrite Z.sub_diag; exact Hh).
  destruct (computeOverlap_inside jamCenter jamCenter spanBins Hin Hb)
    as (E & Hx0 & Hx1).
  rewrite E. rewrite Z.sub_diag in *. simpl (Z.abs 0 + 1)%Z in *.
  set (h := Qfloor (spanBins / 2)) in *.
  assert (Hpos : 0 < inject_Z (h + 1)).
  { change 0 with (inject_Z 0). rewrite <- Zlt_Qlt. lia. }
  assert (Eh : inject_Z h / inject_Z (h + 1) == 1 - inject_Z 1 / inject_Z (h + 1)).
  { rewrite inject_Z_plus in *. change (inject_Z 1) with 1 in *. field. lra. }
  rewrite Eh. apply Q.max_r. lra.
Qed.

Lemma computeOverlap_le_centre (txBin jamCenter : Z) (spanBins : Q) :
  (0 <= txBin < BINS)%Z -> (0 <= jamCenter < BINS)%Z ->
  computeOverlap txBin jamCenter spanBins
  <= computeOverlap jamCenter jamCenter spanBins.
Proof.
  intros Ht Hj.
  destruct (Z_le_gt_dec (Z.abs (txBin - jamCenter)) (Qfloor (spanBins / 2)))
    as [Hin|Hout].
  - assert (Hh : (0 <= Qfloor (spanBins / 2))%Z) by lia.
    rewrite (computeOverlap_centre jamCenter spanBins Hj Hh).
    destruct (computeOverlap_inside txBin jamCenter spanBins Hin Ht)
      as (E & _ & _).
    rewrite E. set (h := Qfloor (spanBins / 2)) in *.
    assert (Hpos : 0 < inject_Z (h + 1)).
    { change 0 with (inject_Z 0). rewrite <- Zlt_Qlt. lia. }
    assert (Hc : inject_Z h / inject_Z (h + 1)
                 == 1 - inject_Z 1 / inject_Z (h + 1)).
    { rewrite inject_Z_plus in *. change (inject_Z 1) with 1 in *.
      field. lra. }
    assert (Hd : inject_Z 1 / inject_Z (h + 1)
                 <= inject_Z (Z.abs (txBin - jamCenter) + 1) / inject_Z (h + 1)).
    { apply Qmult_le_compat_r.
      - rewrite <- Zle_Qle. lia.
      - apply Qlt_le_weak, Qinv_lt_0_compat, Hpos. }
    assert (H1 : inject_Z 1 / inject_Z (h + 1) <= 1).
    { apply Qle_shift_div_r; [exact Hpos|].
      rewrite Qmult_1_l, <- Zle_Qle. lia. }
    rewrite Hc. apply Q.max_lub; lra.
  - rewrite (computeOverlap_outside txBin jamCenter spanBins Hout).
    apply (computeOverlap_bounds jamCenter jamCenter spanBins Hj).
Qed.

(** C1, as the code has it.  For bins in [0, BINS) and every span the overlap
    lies in [0, 1) and so never equals 1; it is largest at
    txBin = jamCenter, where it equals half / (half + 1) for
    half = floor(span / 2) >= 0; and it is 0 whenever
    |txBin - jamCenter| > half. *)
Theorem computeOverlap_triangle (txBin jamCenter : Z) (spanBins : Q) :
  (0 <= txBin < BINS)%Z -> (0 <= jamCenter < BINS)%Z ->
  let half := Qfloor (spanBins / 2) in
  0 <= computeOverlap txBin jamCenter spanBins
  /\ computeOverlap txBin jamCenter spanBins < 1
  /\ computeOverlap txBin jamCenter spanBins
     <= computeOverlap jamCenter jamCenter spanBins
  /\ ((0 <= half)%Z ->
      computeOverlap jamCenter jamCenter spanBins
      == inject_Z half / inject_Z (half + 1))
  /\ ((Z.abs (txBin - jamCenter) > half)%Z ->
      computeOverlap txBin jamCenter spanBins == 0).
Proof.
  intros Ht Hj half.
  destruct (computeOverlap_bounds txBin jamCenter spanBins Ht) as [H0 H1].
  repeat split; try assumption.
  - now apply computeOverlap_le_centre.
  - now apply computeOverlap_centre.
  - intros Hout.
    now rewrite (computeOverlap_outside txBin jamCenter spanBins Hout).
Qed.

Lemma computeOverlap_triangle_witness :
  (0 <= 22 < BINS)%Z /\ (0 <= 22 < BINS)%Z
  /\ computeOverlap 22 22 8 == 4 # 5.
Proof.
  assert (Hb : (0 <= 22 < BINS)%Z) by (unfold BINS; lia).
  split; [exact Hb|]. split; [exact Hb|].
  destruct (computeOverlap_triangle 22 22 8 Hb Hb) as (_ & _ & _ & Hc & _).
  rewrite Hc; [reflexivity|]. vm_compute. discriminate.
Defined.

(** C1 as the specification words it fails: with txBin = jamCenter = 5 and
    span 4 the overlap is 2/3, not 1. *)
Lemma computeOverlap_centre_not_one :
  computeOverlap 5 5 4 == 2 # 3
  /\ ~ (computeOverlap 5 5 4 == 1 <-> 5%Z = 5%Z).
Proof.
  split; [reflexivity|].
  intros [_ Hback]. specialize (Hback eq_refl). vm_compute in Hback.
  discriminate.
Qed.

(** ** The tick: when it completes, and what it computes *)

Lemma selectTx_range (H : Host) (s : State) (c : nat) :
  unit_tape H ->
  (0 <= fst (selectTx H s c) < Z.max 1 (Z.of_nat (length (q (tx s)))))%Z.
Proof. intros U. now apply pickAction_range. Qed.

Lemma selectJam_range (H : Host) (s : State) (c : nat) :
  unit_tape H ->
  (0 <= fst (selectJam H s c)
   < (if jamAdaptive s then Z.max 1 (Z.of_nat (length (q (jam s))))
      else Z.of_nat (length JAM_ACTIONS)))%Z.
Proof.
  intros U. unfold selectJam. destruct (jamAdaptive s).
  - now apply pickAction_range.
  - pose proof (randomIndex_range H (length JAM_ACTIONS) c U) as P.
    rewrite JAM_ACTIONS_length in *. simpl Z.of_nat in *. lia.
Qed.

(** What a completed [stepLocals] returned. *)
Lemma stepLocals_inv (H : Host) (cfg : Settings) (s : State) (c c' : nat)
    (l : Locals) :
  stepLocals H cfg s c = (Normal l, c') ->
  exists ta ja,
    aget TX_ACTIONS (fst (selectTx H s c)) = Some ta
    /\ aget JAM_ACTIONS (fst (selectJam H s (snd (selectTx H s c)))) = Some ja
    /\ l = physics H cfg (fst (selectTx H s c)) ta
             (fst (selectJam H s (snd (selectTx H s c)))) ja
    /\ c' = snd (selectJam H s (snd (selectTx H s c))).
Proof.
  unfold stepLocals, bind, ret.
  destruct (selectTx H s c) as [i c1]. cbn [fst snd].
  destruct (selectJam H s c1) as [j c2]. cbn [fst snd].
  destruct (aget TX_ACTIONS i) as [ta|]; [|discriminate].
  destruct (aget JAM_ACTIONS j) as [ja|]; [|discriminate].
  intros E. inversion E; subst. now exists ta, ja.
Qed.

(** On tables that fit, and draws in [0, 1), [stepLocals] completes. *)
Lemma stepLocals_normal (H : Host) (cfg : Settings) (s : State) (c : nat) :
  unit_tape H -> tables_fit s ->
  exists l c', stepLocals H cfg s c = (Normal l, c').
Proof.
  intros U [Ftx Fjam].
  pose proof (selectTx_range H s c U) as Rt.
  pose proof (selectJam_range H s (snd (selectTx H s c)) U) as Rj.
  unfold stepLocals, bind, ret.
  destruct (selectTx H s c) as [i c1]. cbn [fst snd] in *.
  destruct (selectJam H s c1) as [j c2]. cbn [fst snd] in *.
  destruct (aget_Some TX_ACTIONS i) as [ta Eta].
  { rewrite TX_ACTIONS_length in *. lia. }
  destruct (aget_Some JAM_ACTIONS j) as [ja Eja].
  { rewrite JAM_ACTIONS_length in *. destruct (jamAdaptive s); lia. }
  rewrite Eta, Eja. eauto.
Qed.

Lemma physics_txIdx H cfg i ta j ja : txIdx (physics H cfg i ta j ja) = i.
Proof. reflexivity. Qed.

Lemma physics_jamIdx H cfg i ta j ja : jamIdx (physics H cfg i ta j ja) = j.
Proof. reflexivity. Qed.

Lemma stepSimulation_inv (H : Host) (cfg : Settings) (s s' : State)
    (c c' : nat) :
  stepSimulation H cfg s c = (Normal s', c') ->
  exists l,
    stepLocals H cfg (applySettings cfg s) c = (Normal l, c')
    /\ s' = record H (learn (applySettings cfg s) l) l.
Proof.
  unfold stepSimulation, bind, ret.
  destruct (stepLocals H cfg (applySettings cfg s) c) as [[l|] c1];
    intros E; inversion E; subst. now exists l.
Qed.

Lemma stepSimulation_of_locals (H : Host) (cfg : Settings) (s : State)
    (c c' : nat) (l : Locals) :
  stepLocals H cfg (applySettings cfg s) c = (Normal l, c') ->
  stepSimulation H cfg s c
  = (Normal (record H (learn (applySettings cfg s) l) l), c').
Proof. intros E. unfold stepSimulation, bind, ret. now rewrite E. Qed.

Lemma tickLocals_of_step (H : Host) (cfg : Settings) (s : State)
    (c c' : nat) (l : Locals) :
  stepLocals H cfg (applySettings cfg s) c = (Normal l, c') ->
  tickLocals H cfg s c = Normal l.
Proof. intros E. unfold tickLocals. now rewrite E. Qed.

Lemma aget_range {A} (arr : list A) (i : Z) (a : A) :
  aget arr i = Some a -> (0 <= i < Z.of_nat (length arr))%Z.
Proof.
  unfold aget. destruct (Z.ltb_spec i 0); [discriminate|]. intros E.
  assert (Z.to_nat i < length arr)%nat
    by (apply nth_error_Some; congruence).
  lia.
Qed.

(** The indices of a completed tick are indices of the action spaces, so the
    writes of [learn] stay inside them. *)
Lemma learn_fit (H : Host) (cfg : Settings) (s : State) (c c' : nat)
    (l : Locals) :
  tables_fit s ->
  stepLocals H cfg s c = (Normal l, c') ->
  tables_fit (learn s l).
Proof.
  intros [Ftx Fjam] E.
  destruct (stepLocals_inv H cfg s c c' l E) as (ta & ja & Rt & Rj & -> & _).
  apply aget_range in Rt. apply aget_range in Rj.
  unfold learn. rewrite physics_txIdx, physics_jamIdx.
  destruct (freezeLearning s); [now split|].
  unfold tables_fit in *. rewrite TX_ACTIONS_length, JAM_ACTIONS_length in *.
  cbn [tx jam q set_q]. split.
  - rewrite qwrite_length by lia. lia.
  - destruct (jamAdaptive s); [|assumption].
    cbn [q set_q]. rewrite qwrite_length by lia. lia.
Qed.

(** A tick on tables that fit completes, and the tables still fit. *)
Lemma stepSimulation_normal (H : Host) (cfg : Settings) (s : State) (c : nat) :
  unit_tape H -> tables_fit s ->
  exists s' c', stepSimulation H cfg s c = (Normal s', c') /\ tables_fit s'.
Proof.
  intros U F.
  assert (F1 : tables_fit (applySettings cfg s)) by exact F.
  destruct (stepLocals_normal H cfg _ c U F1) as (l & c' & E).
  exists (record H (learn (applySettings cfg s) l) l), c'. split.
  - now apply stepSimulation_of_locals.
  - exact (learn_fit H cfg _ c c' l F1 E).
Qed.

Lemma resetSimulation_fit (s : State) : tables_fit (resetSimulation s).
Proof.
  unfold tables_fit, resetSimulation. cbn [tx jam q set_q].
  rewrite !initQ_zeros, !repeat_length. split; apply Nat.le_refl.
Qed.

Lemma state_fit : tables_fit state.
Proof. unfold tables_fit. simpl. lia. Qed.

(** ** What the handlers keep *)

Lemma perturb_length (H : Host) (n : nat) : forall (i : Z) tbl c,
  (0 <= i)%Z -> (Z.to_nat i + n <= length tbl)%nat ->
  length (fst (perturb H n i tbl c)) = length tbl.
Proof.
  induction n as [|n IH]; intros i tbl c Hi Hl; [reflexivity|].
  cbn [perturb]. unfold bind, random.
  rewrite IH; rewrite ?qwrite_length; lia.
Qed.

Lemma learn_jam_rates (s : State) (l : Locals) :
  eps (jam (learn s l)) = eps (jam s) /\ lr (jam (learn s l)) = lr (jam s).
Proof.
  unfold learn. destruct (freezeLearning s); [now split|].
  cbn [jam]. destruct (jamAdaptive s); now split.
Qed.

Lemma reachable_inv (H : Host) (s : State) :
  reachable H s -> tables_fit s /\ jam_rates_fixed s.
Proof.
  induction 1 as [ | s R IH | s cfg c s' c' R IH E | s c R IH
                   | s R IH | s b R IH | s b R IH ].
  - split; [apply resetSimulation_fit|now split].
  - split; [apply resetSimulation_fit|exact (proj2 IH)].
  - destruct IH as [F [Eeps Elr]].
    destruct (stepSimulation_inv H cfg s s' c c' E) as (l & El & ->).
    split.
    + exact (learn_fit H cfg (applySettings cfg s) c c' l F El).
    + unfold jam_rates_fixed. cbn [record jam set_lastAction eps lr].
      destruct (learn_jam_rates (applySettings cfg s) l) as [-> ->].
      now split.
  - destruct IH as [[Ftx Fjam] J].
    unfold mutateJammer, bind, ret.
    pose proof (perturb_length H (length (q (jam s))) 0 (q (jam s)) c) as P.
    destruct (perturb H (length (q (jam s))) 0 (q (jam s)) c) as [tbl c1].
    cbn [fst] in *. split; [|exact J]. split; [exact Ftx|].
    cbn [jam q set_q]. rewrite P; [exact Fjam|lia|simpl; lia].
  - exact IH.
  - exact IH.
  - exact IH.
Qed.

(** ** Rewards *)

Lemma set_nth_read (l : list Number) (i : nat) (v : Number) :
  nth_error (set_nth l i v) i = Some v.
Proof.
  revert i; induction l as [|x l IH]; intros i.
  - induction i as [|i IHi]; [reflexivity|exact IHi].
  - destruct i; [reflexivity|apply IH].
Qed.

Lemma qread_qwrite (l : list Number) (i : Z) (v : Number) :
  (0 <= i)%Z -> qread (qwrite l i v) i = v.
Proof.
  intros Hi. unfold qread, aget, qwrite.
  destruct (Z.ltb_spec i 0); [lia|]. now rewrite set_nth_read.
Qed.

Lemma pushBounded_last (hist : list TickOutcome) (e d : TickOutcome) :
  last (pushBounded hist e) d = e.
Proof.
  unfold pushBounded.
  destruct (HISTORY_POINTS <? length (hist ++ [e]))%nat eqn:E.
  - destruct hist as [|x hist]; [discriminate|].
    cbn [app tl]. apply last_last.
  - apply last_last.
Qed.

Lemma learn_frame (s : State) (l : Locals) :
  t (learn s l) = t s /\ history (learn s l) = history s.
Proof. unfold learn. destruct (freezeLearning s); now split. Qed.

(** C2.  Every tick on fitting tables completes, and in it the transmitter's
    reward is throughputMbps - 0.02 * (txMaxPower * action power)
    - 6 * overlapFactor and the jammer's is
    jammingIntensity * (jamMaxPower * action power) - 0.08 * throughputMbps,
    over the throughput, intensity and overlap that the tick records in the
    history; these are the rewards the value tables move towards. *)
Theorem tick_rewards (H : Host) (cfg : Settings) (s : State) (c : nat) :
  unit_tape H -> tables_fit s ->
  exists l s' c',
    tickLocals H cfg s c = Normal l
    /\ stepSimulation H cfg s c = (Normal s', c')
    /\ txReward l
       = h_throughputMbps (outcomeOf H (t s) l)
         - 0.02 * (cfg_txMaxPower cfg * tx_p (txAct l))
         - 6 * h_overlapFactor (outcomeOf H (t s) l)
    /\ jamReward l
       = h_jammingIntensity (outcomeOf H (t s) l)
           * (cfg_jamMaxPower cfg * jam_p (jamAct l))
         - 0.08 * h_throughputMbps (outcomeOf H (t s) l)
    /\ (forall d, last (history s') d = outcomeOf H (t s) l)
    /\ last_txAct (h_tx (outcomeOf H (t s) l)) = txAct l
    /\ last_jamAct (h_jam (outcomeOf H (t s) l)) = jamAct l
    /\ (cfg_freeze cfg = false ->
        qread (q (tx s')) (txIdx l)
        = td (cfg_lr cfg) (txReward l) (qread (q (tx s)) (txIdx l)))
    /\ (cfg_freeze cfg = false -> cfg_jamAdaptive cfg = true ->
        qread (q (jam s')) (jamIdx l)
        = td (lr (jam s)) (jamReward l) (qread (q (jam s)) (jamIdx l))).
Proof.
  intros U F.
  destruct (stepLocals_normal H cfg (applySettings cfg s) c U F)
    as (l & c' & E).
  exists l, (record H (learn (applySettings cfg s) l) l), c'.
  destruct (stepLocals_inv H cfg _ c c' l E) as (ta & ja & Rt & Rj & El & _).
  apply aget_range in Rt. apply aget_range in Rj.
  assert (Ei : txIdx l = fst (selectTx H (applySettings cfg s) c))
    by (now rewrite El).
  assert (Ej : jamIdx l
     = fst (selectJam H (applySettings cfg s)
              (snd (selectTx H (applySettings cfg s) c))))
    by (now rewrite El).
  split; [exact (tickLocals_of_step H cfg s c c' l E)|].
  split; [exact (stepSimulation_of_locals H cfg s c c' l E)|].
  split; [now rewrite El|]. split; [now rewrite El|].
  split.
  { intros d. cbn [record history].
    destruct (learn_frame (applySettings cfg s) l) as [-> _].
    apply pushBounded_last. }
  split; [reflexivity|]. split; [reflexivity|].
  split.
  - intros Fz. unfold learn, applySettings at 1.
    cbn [freezeLearning]. rewrite Fz. cbn [record tx set_lastAction q set_q lr].
    apply qread_qwrite. rewrite Ei. lia.
  - intros Fz Ad. unfold learn, applySettings at 1.
    cbn [freezeLearning]. rewrite Fz.
    cbn [record jam jamAdaptive applySettings]. rewrite Ad.
    cbn [set_lastAction q set_q]. apply qread_qwrite. rewrite Ej. lia.
Qed.

Lemma sampleHost_unit : unit_tape sampleHost.
Proof. intros n. split; vm_compute; [discriminate|reflexivity]. Qed.

Lemma tick_rewards_witness :
  unit_tape sampleHost /\ tables_fit (resetSimulation state)
  /\ exists l s' c',
       tickLocals sampleHost sampleSettings (resetSimulation state) 0%nat
       = Normal l
       /\ stepSimulation sampleHost sampleSettings (resetSimulation state)
            0%nat
          = (Normal s', c')
       /\ qread (q (tx s')) (txIdx l) = td 0.18 (txReward l) (Fin 0).
Proof.
  assert (U : unit_tape sampleHost) by exact sampleHost_unit.
  assert (F : tables_fit (resetSimulation state))
    by (unfold tables_fit; vm_compute; split; apply le_n).
  split; [exact U|]. split; [exact F|].
  destruct (tick_rewards sampleHost sampleSettings (resetSimulation state)
              0%nat U F) as (l & s' & c' & A & B & _ & _ & _ & _ & _ & Htx & _).
  exists l, s', c'. split; [exact A|]. split; [exact B|].
  rewrite (Htx eq_refl).
  vm_compute in A. injection A as <-. reflexivity.
Defined.

(** ** Frozen learning *)

Lemma learn_frozen (s : State) (l : Locals) :
  freezeLearning s = true -> learn s l = s.
Proof. intros E. unfold learn. now rewrite E. Qed.

Lemma frozen_tick_tables (H : Host) (cfg : Settings) (s s' : State)
    (c c' : nat) :
  cfg_freeze cfg = true ->
  stepSimulation H cfg s c = (Normal s', c') ->
  q (tx s') = q (tx s) /\ q (jam s') = q (jam s).
Proof.
  intros Fz E.
  destruct (stepSimulation_inv H cfg s s' c c' E) as (l & _ & ->).
  rewrite learn_frozen by exact Fz. now split.
Qed.

(** C4.  If learningFrozen is true on every tick of a run, the run completes
    and both value tables are afterwards exactly the tables it started
    with. *)
Theorem frozen_tables_unchanged (H : Host) (cfgs : list Settings) :
  forall (s : State) (c : nat),
  unit_tape H -> tables_fit s ->
  Forall (fun cfg => cfg_freeze cfg = true) cfgs ->
  exists s' c',
    run H cfgs s c = (Normal s', c')
    /\ q (tx s') = q (tx s) /\ q (jam s') = q (jam s).
Proof.
  induction cfgs as [|cfg cfgs IH]; intros s c U F Hall.
  - exists s, c. now repeat split.
  - inversion Hall as [|? ? Fz Hrest]; subst.
    destruct (stepSimulation_normal H cfg s c U F) as (s1 & c1 & E & F1).
    destruct (frozen_tick_tables H cfg s s1 c c1 Fz E) as [Etx Ejam].
    destruct (IH s1 c1 U F1 Hrest) as (s' & c' & Er & Etx' & Ejam').
    exists s', c'. cbn [run]. unfold bind. rewrite E.
    split; [exact Er|]. split; congruence.
Qed.

Lemma frozen_tables_unchanged_witness :
  unit_tape sampleHost /\ tables_fit warmState
  /\ Forall (fun cfg => cfg_freeze cfg = true)
            [frozenSettings; frozenSettings; frozenSettings]
  /\ exists s' c',
       run sampleHost [frozenSettings; frozenSettings; frozenSettings]
           warmState 1%nat = (Normal s', c')
       /\ q (tx s') = q (tx warmState) /\ q (jam s') = q (jam warmState).
Proof.
  assert (U : unit_tape sampleHost) by exact sampleHost_unit.
  assert (F : tables_fit warmState)
    by (unfold tables_fit; vm_compute; split; apply le_n).
  assert (A : Forall (fun cfg => cfg_freeze cfg = true)
                [frozenSettings; frozenSettings; frozenSettings])
    by (repeat constructor).
  split; [exact U|]. split; [exact F|]. split; [exact A|].
  exact (frozen_tables_unchanged sampleHost _ warmState 1%nat U F A).
Defined.

(** ** The history *)

Lemma map_tail {A B} (f : A -> B) (l : list A) : map f (tl l) = tl (map f l).
Proof. now destruct l. Qed.

Lemma window_push (hist : list TickOutcome) (e : TickOutcome) (n : nat) :
  map h_t hist = window n -> h_t e = Z.of_nat n ->
  map h_t (pushBounded hist e) = window (S n).
Proof.
  intros Hw He. unfold pushBounded, window in *.
  assert (Hcap : (0 < HISTORY_POINTS)%nat) by (unfold HISTORY_POINTS; lia).
  set (cap := HISTORY_POINTS) in *. clearbody cap.
  assert (Hlen : length hist = Nat.min n cap).
  { rewrite <- (length_map h_t), Hw, length_map, length_seq. reflexivity. }
  assert (Hall : map h_t (hist ++ [e])
                 = map Z.of_nat (seq (n - Nat.min n cap) (S (Nat.min n cap)))).
  { rewrite map_app, Hw, seq_S, map_app. cbn [map]. rewrite He.
    do 3 f_equal. lia. }
  rewrite length_app, Hlen. cbn [length].
  destruct (Nat.ltb_spec cap (Nat.min n cap + 1)).
  - rewrite map_tail, Hall. cbn [seq map tl]. do 2 f_equal; lia.
  - rewrite Hall. do 2 f_equal; lia.
Qed.

Lemma window_length (n : nat) : length (window n) = Nat.min n HISTORY_POINTS.
Proof. unfold window. now rewrite length_map, length_seq. Qed.

Lemma window_nth (n i : nat) (a : Z) :
  nth_error (window n) i = Some a ->
  a = Z.of_nat (n - Nat.min n HISTORY_POINTS + i).
Proof.
  intros E.
  assert (Hi : (i < Nat.min n HISTORY_POINTS)%nat).
  { rewrite <- window_length. apply nth_error_Some. congruence. }
  apply (nth_error_nth _ _ (Z.of_nat 0)) in E. rewrite <- E.
  unfold window. rewrite map_nth. f_equal. now apply seq_nth.
Qed.

Lemma window_In (n : nat) (j : Z) :
  In j (window n) ->
  (Z.of_nat (n - Nat.min n HISTORY_POINTS) <= j < Z.of_nat n)%Z.
Proof.
  unfold window. rewrite in_map_iff. intros (m & <- & Hm).
  apply in_seq in Hm. lia.
Qed.

Lemma step_history (H : Host) (cfg : Settings) (s s' : State) (c c' n : nat) :
  stepSimulation H cfg s c = (Normal s', c') ->
  t s = Z.of_nat n -> ticks s = window n ->
  t s' = Z.of_nat (S n) /\ ticks s' = window (S n).
Proof.
  intros E Ht Hw.
  destruct (stepSimulation_inv H cfg s s' c c' E) as (l & _ & ->).
  destruct (learn_frame (applySettings cfg s) l) as [Et Eh].
  unfold ticks. cbn [record t history]. rewrite Et, Eh.
  cbn [applySettings t history]. split.
  - rewrite Ht. lia.
  - apply window_push; [exact Hw|exact Ht].
Qed.

Lemma run_history (H : Host) (cfgs : list Settings) :
  forall (s : State) (c n : nat),
  unit_tape H -> tables_fit s ->
  t s = Z.of_nat n -> ticks s = window n ->
  exists s' c',
    run H cfgs s c = (Normal s', c')
    /\ t s' = Z.of_nat (n + length cfgs)
    /\ ticks s' = window (n + length cfgs).
Proof.
  induction cfgs as [|cfg cfgs IH]; intros s c n U F Ht Hw.
  - exists s, c. rewrite Nat.add_0_r. now repeat split.
  - destruct (stepSimulation_normal H cfg s c U F) as (s1 & c1 & E & F1).
    destruct (step_history H cfg s s1 c c1 n E Ht Hw) as [Ht1 Hw1].
    destruct (IH s1 c1 (S n) U F1 Ht1 Hw1) as (s' & c' & Er & Ht' & Hw').
    exists s', c'. cbn [run length]. unfold bind. rewrite E.
    rewrite Nat.add_succ_r. now repeat split.
Qed.

(** C3.  After a reset and any number [n] of ticks: the run completes; the
    history holds exactly the last min(n, HISTORY_POINTS) tick numbers of
    0 .. n-1 in ascending order, so its length never exceeds HISTORY_POINTS
    = 180; after HISTORY_POINTS + k ticks the ticks 0 .. k-1 are gone; each
    stored tick is its predecessor plus 1; and the numbering starts at 0. *)
Theorem history_bounded_fifo (H : Host) (cfgs : list Settings) (s : State)
    (c : nat) :
  unit_tape H ->
  exists s' c',
    run H cfgs (resetSimulation s) c = (Normal s', c')
    /\ t s' = Z.of_nat (length cfgs)
    /\ ticks s' = window (length cfgs)
    /\ (length (history s') <= HISTORY_POINTS)%nat
    /\ HISTORY_POINTS = 180%nat
    /\ (forall k j, length cfgs = (HISTORY_POINTS + k)%nat ->
          (0 <= j < Z.of_nat k)%Z -> ~ In j (ticks s'))
    /\ (forall i a b, nth_error (ticks s') i = Some a ->
          nth_error (ticks s') (S i) = Some b -> b = (a + 1)%Z)
    /\ ((length cfgs <= HISTORY_POINTS)%nat ->
        ticks s' = map Z.of_nat (seq 0 (length cfgs))).
Proof.
  intros U.
  destruct (run_history H cfgs (resetSimulation s) c 0 U
              (resetSimulation_fit s) eq_refl eq_refl)
    as (s' & c' & Er & Ht & Hw).
  cbn [Nat.add] in *.
  exists s', c'. split; [exact Er|]. split; [exact Ht|]. split; [exact Hw|].
  split.
  { unfold ticks in Hw. rewrite <- (length_map h_t), Hw, window_length. lia. }
  split; [reflexivity|]. split; [|split].
  - intros k j Hn Hj Hin. rewrite Hw in Hin. apply window_In in Hin. lia.
  - intros i a b Ha Hb. rewrite Hw in *.
    apply window_nth in Ha. apply window_nth in Hb. lia.
  - intros Hle. rewrite Hw. unfold window.
    rewrite Nat.min_l by exact Hle. now rewrite Nat.sub_diag.
Qed.

(** Eviction at work: 182 ticks after a reset leave the ticks 2 .. 181. *)
Example history_after_182_ticks :
  match fst (run sampleHost (repeat frozenSettings 182) (resetSimulation state)
               0%nat) with
  | Normal s' => ticks s' = map Z.of_nat (seq 2 180)
  | TypeError => False
  end.
Proof. vm_compute. reflexivity. Qed.

Lemma history_bounded_fifo_witness :
  unit_tape sampleHost
  /\ exists s' c',
       run sampleHost [sampleSettings; frozenSettings; sampleSettings]
           (resetSimulation state) 0%nat = (Normal s', c')
       /\ ticks s' = [0; 1; 2]%Z.
Proof.
  split; [exact sampleHost_unit|].
  destruct (history_bounded_fifo sampleHost
              [sampleSettings; frozenSettings; sampleSettings] state 0%nat
              sampleHost_unit)
    as (s' & c' & Er & _ & _ & _ & _ & _ & _ & Hw).
  exists s', c'. split; [exact Er|]. apply Hw.
  cbn [length]. unfold HISTORY_POINTS. lia.
Defined.

(** ** Selection in a tick *)

(** The selections of a tick, in terms of the state before it and of the
    settings. *)
Lemma tick_selections (H : Host) (cfg : Settings) (s : State) (c : nat) :
  unit_tape H -> tables_fit s ->
  let rate := fun e : Q => if cfg_freeze cfg then 0 else e in
  let selTx := pickAction H (q (tx s)) (rate (cfg_eps cfg)) c in
  let selJam :=
    (if cfg_jamAdaptive cfg
     then pickAction H (q (jam s)) (rate (eps (jam s)))
     else randomIndex H (length JAM_ACTIONS)) (snd selTx) in
  exists l,
    stepLocals H cfg (applySettings cfg s) c = (Normal l, snd selJam)
    /\ txIdx l = fst selTx /\ jamIdx l = fst selJam.
Proof.
  intros U F rate selTx selJam.
  destruct (stepLocals_normal H cfg (applySettings cfg s) c U F)
    as (l & c' & E).
  destruct (stepLocals_inv H cfg _ c c' l E) as (ta & ja & _ & _ & El & Ec).
  exists l. rewrite E, Ec, El. now repeat split.
Qed.

(** C5, as the code has it.  With cfg.jammerAdaptive true the jammer's index
    is the epsilon-greedy selection over its value table with exploration
    rate 0 if learning is frozen and otherwise the jammer's own fixed rate
    0.12; the configured explorationRate sets the transmitter's rate only
    (0 if frozen, the configured rate otherwise). *)
Theorem adaptive_jammer_selection (H : Host) (cfg : Settings) (s : State)
    (c : nat) :
  unit_tape H -> reachable H s -> cfg_jamAdaptive cfg = true ->
  let rate := fun e : Q => if cfg_freeze cfg then 0 else e in
  let selTx := pickAction H (q (tx s)) (rate (cfg_eps cfg)) c in
  let selJam := pickAction H (q (jam s)) (rate 0.12) (snd selTx) in
  exists l,
    tickLocals H cfg s c = Normal l
    /\ txIdx l = fst selTx /\ jamIdx l = fst selJam.
Proof.
  intros U R Ad rate selTx selJam.
  destruct (reachable_inv H s R) as [F [Eeps _]].
  destruct (tick_selections H cfg s c U F) as (l & E & Ei & Ej).
  rewrite Ad, Eeps in *.
  exists l. split; [exact (tickLocals_of_step H cfg s c _ l E)|].
  now split.
Qed.

Lemma adaptive_jammer_selection_witness :
  unit_tape sampleHost /\ reachable sampleHost (resetSimulation state)
  /\ cfg_jamAdaptive sampleSettings = true
  /\ exists l,
       tickLocals sampleHost sampleSettings (resetSimulation state) 0%nat
       = Normal l
       /\ txIdx l = 32%Z /\ jamIdx l = 0%Z.
Proof.
  split; [exact sampleHost_unit|]. split; [apply reach_main|].
  split; [reflexivity|].
  destruct (adaptive_jammer_selection sampleHost sampleSettings
              (resetSimulation state) 0%nat sampleHost_unit
              (reach_main sampleHost) eq_refl)
    as (l & A & Ei & Ej).
  exists l. split; [exact A|]. split.
  - rewrite Ei. vm_compute. reflexivity.
  - rewrite Ej. vm_compute. reflexivity.
Defined.

(** C5 as the specification words it fails.  After a reset, with
    explorationRate 0.5, learning not frozen, an adaptive jammer and every draw
    0.3: the transmitter explores (0.3 < 0.5) and takes index 32; selection
    with the configured rate would make the jammer explore too and take
    index 43, but the jammer compares the draw with its own 0.12 and takes
    the greedy index 0. *)
Lemma jammer_ignores_configured_rate :
  cfg_jamAdaptive sampleSettings = true
  /\ cfg_freeze sampleSettings = false
  /\ exists l,
       tickLocals sampleHost sampleSettings (resetSimulation state) 0%nat
       = Normal l
       /\ txIdx l = 32%Z
       /\ jamIdx l = 0%Z
       /\ pickAction sampleHost (q (jam (resetSimulation state)))
            (cfg_eps sampleSettings) 2%nat = (43%Z, 4%nat)
       /\ jamIdx l
          <> fst (pickAction sampleHost (q (jam (resetSimulation state)))
                    (cfg_eps sampleSettings) 2%nat).
Proof.
  split; [reflexivity|]. split; [reflexivity|].
  eexists. split; [vm_compute; reflexivity|].
  split; [reflexivity|]. split; [reflexivity|].
  split; [vm_compute; reflexivity|]. vm_compute. discriminate.
Qed.

(** ** The non-adaptive jammer *)

Lemma Qfloor_unique (x : Q) (i : Z) :
  Qfloor x = i <-> inject_Z i <= x /\ x < inject_Z (i + 1).
Proof.
  split.
  - intros <-. split; [apply Qfloor_le|apply Qlt_floor].
  - intros [Hlo Hhi].
    pose proof (Qfloor_le x) as Fl. pose proof (Qlt_floor x) as Fu.
    assert (A : inject_Z (Qfloor x) < inject_Z (i + 1))
      by (eapply Qle_lt_trans; eassumption).
    assert (B : inject_Z i < inject_Z (Qfloor x + 1))
      by (eapply Qle_lt_trans; eassumption).
    rewrite <- Zlt_Qlt in A, B. lia.
Qed.

Lemma learn_jam_nonadaptive (s : State) (l : Locals) :
  jamAdaptive s = false -> q (jam (learn s l)) = q (jam s).
Proof.
  intros E. unfold learn. destruct (freezeLearning s); [reflexivity|].
  cbn [jam]. now rewrite E.
Qed.

Section RoundedIndex.

Variable fl : Q -> Q.
Hypothesis Hfl : rounds_within roundErr fl.
Variables (r : Q) (i : Z).
Hypotheses (Hr0 : 0 <= r) (Hr1 : r < 1).

(** Away from the upper edge of cell [i], the rounded product floors to
    [i]. *)
Lemma rounded_cell_inside :
  inject_Z i / 144 <= r -> r <= inject_Z (i + 1) / 144 - cellEdge ->
  Qfloor (fl (r * 144)) = i.
Proof.
  intros Hlo Hhi. destruct Hfl as (Mono & Int & Err).
  rewrite inject_Z_plus in Hhi. change (inject_Z 1) with 1 in Hhi.
  assert (Ea : inject_Z i / 144 * 144 == inject_Z i) by field.
  assert (Eb : (inject_Z i + 1) / 144 * 144 == inject_Z i + 1) by field.
  set (a := inject_Z i / 144) in *. set (b := (inject_Z i + 1) / 144) in *.
  unfold cellEdge in Hhi.
  assert (Hx0 : 0 <= r * 144) by lra.
  assert (Hx1 : r * 144 <= 144) by lra.
  assert (Hi : inject_Z i <= r * 144) by lra.
  assert (Hi1 : r * 144 <= inject_Z i + 1 - 144 * cellEdge)
    by (unfold cellEdge; lra).
  assert (Ri : (0 <= i <= 144)%Z).
  { split.
    - assert (A : inject_Z (-1) < inject_Z i).
      { change (inject_Z (-1)) with (- (1)). unfold cellEdge in Hi1. lra. }
      rewrite <- Zlt_Qlt in A. lia.
    - assert (A : inject_Z i <= inject_Z 144)
        by (change (inject_Z 144) with 144; lra).
      now rewrite <- Zle_Qle in A. }
  apply Qfloor_unique. split.
  - rewrite <- (Int i Ri). now apply Mono.
  - destruct (Err (r * 144) Hx0 Hx1) as [Up _].
    rewrite inject_Z_plus. change (inject_Z 1) with 1.
    unfold roundErr, cellEdge in *. lra.
Qed.

(** The rounded product floors to [i] only for draws of cell [i], or within
    the margin below it. *)
Lemma rounded_cell_only :
  Qfloor (fl (r * 144)) = i ->
  inject_Z i / 144 - cellEdge <= r /\ r < inject_Z (i + 1) / 144.
Proof.
  intros E. destruct Hfl as (Mono & Int & Err).
  apply Qfloor_unique in E. destruct E as [Lo Hi].
  rewrite inject_Z_plus in *. change (inject_Z 1) with 1 in *.
  assert (Ea : inject_Z i / 144 * 144 == inject_Z i) by field.
  assert (Eb : (inject_Z i + 1) / 144 * 144 == inject_Z i + 1) by field.
  set (a := inject_Z i / 144) in *. set (b := (inject_Z i + 1) / 144) in *.
  assert (Hx0 : 0 <= r * 144) by lra.
  assert (Hx1 : r * 144 <= 144) by lra.
  destruct (Err (r * 144) Hx0 Hx1) as [Up _].
  split; [unfold roundErr, cellEdge in *; lra|].
  assert (F0 : 0 <= fl (r * 144)).
  { assert (Z0 : (0 <= 0 <= 144)%Z) by lia.
    rewrite <- (Int 0%Z Z0). now apply Mono. }
  assert (Hx : r * 144 < inject_Z i + 1); [|lra].
  apply Qnot_le_lt. intros Ge.
  destruct (Z_le_gt_dec (i + 1) 144) as [Hsmall|Hbig].
  - assert (Ri : (0 <= i + 1 <= 144)%Z).
    { split; [|exact Hsmall].
      assert (A : inject_Z (-1) < inject_Z (i + 1)).
      { rewrite inject_Z_plus. change (inject_Z (-1)) with (- (1)).
        change (inject_Z 1) with 1. lra. }
      rewrite <- Zlt_Qlt in A. lia. }
    assert (B : inject_Z (i + 1) <= fl (r * 144)).
    { rewrite <- (Int (i + 1)%Z Ri). apply Mono.
      rewrite inject_Z_plus. exact Ge. }
    rewrite inject_Z_plus in B. change (inject_Z 1) with 1 in B. lra.
  - assert (A : inject_Z 144 < inject_Z (i + 1))
      by (rewrite <- Zlt_Qlt; lia).
    rewrite inject_Z_plus in A. change (inject_Z 144) with 144 in A.
    change (inject_Z 1) with 1 in A. lra.
Qed.

End RoundedIndex.

Lemma exact_rounds : rounds_within roundErr (fun x => x).
Proof.
  split; [intros x y Hxy; exact Hxy|]. split; [reflexivity|].
  intros x _ _. unfold roundErr. split; lra.
Qed.

(** C6.  With cfg.jammerAdaptive false, whatever learningFrozen is: the tick
    completes; the jammer's index is Math.floor(Math.random() * 144) at the
    one draw r that follows the draws of the transmitter's selection; it is
    an index of the jammer action space, the whole of which it ranges over:
    index i comes out for every draw from i/144 up to (i+1)/144 less a
    margin of 1e-15, and only for draws from i/144 less that margin to
    below (i+1)/144.  The cells so have the same length 1/144 for every i, up
    to the margin at their edges; the same holds of the floor of the product
    rounded by any monotone rounding that keeps the integers and is off by
    at most 1e-13, which is how the product reaches Math.floor.  The
    jammer's value table is unchanged. *)
Theorem random_jammer (H : Host) (cfg : Settings) (s : State) (c : nat) :
  unit_tape H -> tables_fit s -> cfg_jamAdaptive cfg = false ->
  let c1 := snd (pickAction H (q (tx s))
                   (if cfg_freeze cfg then 0 else cfg_eps cfg) c) in
  let r := Math_random H c1 in
  exists l s' c',
    tickLocals H cfg s c = Normal l
    /\ stepSimulation H cfg s c = (Normal s', c')
    /\ c' = S c1
    /\ jamIdx l = fst (randomIndex H (length JAM_ACTIONS) c1)
    /\ (0 <= jamIdx l < Z.of_nat (length JAM_ACTIONS))%Z
    /\ (exists a, aget JAM_ACTIONS (jamIdx l) = Some a /\ jamAct l = a)
    /\ (forall i : Z,
          inject_Z i / 144 <= r -> r <= inject_Z (i + 1) / 144 - cellEdge ->
          jamIdx l = i)
    /\ (forall i : Z,
          jamIdx l = i ->
          inject_Z i / 144 - cellEdge <= r /\ r < inject_Z (i + 1) / 144)
    /\ (forall fl : Q -> Q, rounds_within roundErr fl ->
        forall i : Z,
          (inject_Z i / 144 <= r ->
           r <= inject_Z (i + 1) / 144 - cellEdge ->
           Qfloor (fl (r * 144)) = i)
          /\ (Qfloor (fl (r * 144)) = i ->
              inject_Z i / 144 - cellEdge <= r
              /\ r < inject_Z (i + 1) / 144))
    /\ q (jam s') = q (jam s).
Proof.
  intros U F Ad c1 r.
  destruct (tick_selections H cfg s c U F) as (l & E & _ & Ej).
  rewrite Ad in *. fold c1 in E, Ej.
  destruct (stepLocals_inv H cfg _ c _ l E) as (ta & ja & _ & Eja & El & _).
  destruct (U c1) as [R0 R1]. fold r in R0, R1.
  assert (Ejam : jamIdx l = Qfloor ((fun x => x) (r * 144))) by exact Ej.
  exists l, (record H (learn (applySettings cfg s) l) l), (S c1).
  split; [exact (tickLocals_of_step H cfg s c _ l E)|].
  split; [exact (stepSimulation_of_locals H cfg s c _ l E)|].
  split; [reflexivity|]. split; [exact Ej|].
  split.
  { rewrite Ej. pose proof (randomIndex_range H (length JAM_ACTIONS) c1 U).
    rewrite JAM_ACTIONS_length in *. simpl Z.of_nat in *. lia. }
  split.
  { exists ja. split; [|now rewrite El].
    rewrite <- Eja. f_equal. rewrite El. reflexivity. }
  split.
  { intros i Hlo Hhi. rewrite Ejam.
    exact (rounded_cell_inside _ exact_rounds r i R0 R1 Hlo Hhi). }
  split.
  { intros i Ei. rewrite Ejam in Ei.
    exact (rounded_cell_only _ exact_rounds r i R0 R1 Ei). }
  split.
  { intros fl Hfl i. split.
    - exact (rounded_cell_inside fl Hfl r i R0 R1).
    - exact (rounded_cell_only fl Hfl r i R0 R1). }
  cbn [record jam set_lastAction q].
  rewrite learn_jam_nonadaptive by exact Ad. reflexivity.
Qed.

Lemma random_jammer_witness :
  unit_tape sampleHost /\ tables_fit (resetSimulation state)
  /\ cfg_jamAdaptive randomJammerSettings = false
  /\ exists l s' c',
       tickLocals sampleHost randomJammerSettings (resetSimulation state)
         0%nat = Normal l
       /\ stepSimulation sampleHost randomJammerSettings
            (resetSimulation state) 0%nat = (Normal s', c')
       /\ jamIdx l = 43%Z
       /\ q (jam s') = q (jam (resetSimulation state)).
Proof.
  assert (F : tables_fit (resetSimulation state))
    by (unfold tables_fit; vm_compute; split; apply le_n).
  split; [exact sampleHost_unit|]. split; [exact F|].
  split; [reflexivity|].
  destruct (random_jammer sampleHost randomJammerSettings
              (resetSimulation state) 0%nat sampleHost_unit F eq_refl)
    as (l & s' & c' & A & B & _ & Ej & _ & _ & _ & _ & _ & Eq).
  exists l, s', c'. split; [exact A|]. split; [exact B|].
  split; [|exact Eq]. rewrite Ej. vm_compute. reflexivity.
Defined.

(** ** SINR *)

Lemma MOD_EFF_pos (m : Modulation) : 0 < MOD_EFF m.
Proof. destruct m; reflexivity. Qed.

Lemma TX_ACTIONS_power_pos (a : TxAction) : In a TX_ACTIONS -> 0 < tx_p a.
Proof.
  assert (A : forallb (fun a => Qltb 0 (tx_p a)) TX_ACTIONS = true)
    by (vm_compute; reflexivity).
  rewrite forallb_forall in A. intros Hin. specialize (A a Hin).
  unfold Qltb in A. now destruct (Qlt_le_dec 0 (tx_p a)).
Qed.

Lemma Qdiv_pos_iff (a d : Q) : 0 < d -> (0 < a / d <-> 0 < a).
Proof.
  intros Hd. split; intros Ha.
  - assert (E : a == a / d * d) by (field; lra).
    rewrite E. apply Qmult_lt_0_compat; assumption.
  - apply Qlt_shift_div_l; [exact Hd|]. now rewrite Qmult_0_l.
Qed.

Lemma Qmult_pos_iff (x k : Q) : 0 < k -> (0 < x * k <-> 0 < x).
Proof.
  intros Hk. split; intros Hx.
  - assert (E : x == x * k / k) by (field; lra).
    rewrite E. now apply Qdiv_pos_iff.
  - apply Qmult_lt_0_compat; assumption.
Qed.

Lemma tickLocals_inv (H : Host) (cfg : Settings) (s : State) (c : nat)
    (l : Locals) :
  tickLocals H cfg s c = Normal l ->
  exists ta ja i j,
    aget TX_ACTIONS i = Some ta /\ aget JAM_ACTIONS j = Some ja
    /\ l = physics H cfg i ta j ja.
Proof.
  unfold tickLocals.
  destruct (stepLocals H cfg (applySettings cfg s) c) as [r c'] eqn:E.
  cbn [fst]. intros ->.
  destruct (stepLocals_inv H cfg _ c c' l E) as (ta & ja & A & B & El & _).
  eauto 8.
Qed.

(** C8, as the code has it.  In a tick whose noise power and interference
    are >= 0 the denominator noisePower + interference + 1 is at least 1,
    hence not zero, and the SINR has the sign of the signal: it is > 0
    exactly when the product txMaxPower * Math.pow(10, snrDb/10) is > 0.  So
    it is > 0 when txMaxPower > 0 and the computed Math.pow(10, snrDb/10) is
    > 0 as well, and it is 0 when txMaxPower is 0 or when that power is 0
    (as it is once snrDb is so low that the power underflows).  A positive
    txMaxPower alone does not make it positive. *)
Theorem sinr_sign (H : Host) (cfg : Settings) (s : State) (c : nat)
    (l : Locals) :
  tickLocals H cfg s c = Normal l ->
  0 <= noisePower l -> 0 <= interference l ->
  sinr l = signal l / (noisePower l + interference l + 1)
  /\ 1 <= noisePower l + interference l + 1
  /\ ~ noisePower l + interference l + 1 == 0
  /\ (0 < sinr l <-> 0 < signal l)
  /\ (0 < sinr l <->
      0 < cfg_txMaxPower cfg * Math_pow H 10 (cfg_snrDb cfg / 10))
  /\ (cfg_txMaxPower cfg == 0 -> sinr l == 0)
  /\ (0 < cfg_txMaxPower cfg ->
      0 < Math_pow H 10 (cfg_snrDb cfg / 10) -> 0 < sinr l)
  /\ (Math_pow H 10 (cfg_snrDb cfg / 10) == 0 -> sinr l == 0).
Proof.
  intros E Hn Hi.
  destruct (tickLocals_inv H cfg s c l E) as (ta & ja & i & j & A & _ & El).
  apply aget_In, TX_ACTIONS_power_pos in A.
  pose proof (MOD_EFF_pos (tx_mod ta)) as Hm.
  assert (Es : sinr l = signal l / (noisePower l + interference l + 1))
    by (now rewrite El).
  assert (Esig : signal l
                 == cfg_txMaxPower cfg * Math_pow H 10 (cfg_snrDb cfg / 10)
                    * (tx_p ta * MOD_EFF (tx_mod ta))).
  { rewrite El. cbn [signal physics]. unfold dbToLin. ring. }
  assert (Hden : 0 < noisePower l + interference l + 1) by lra.
  assert (Hk : 0 < tx_p ta * MOD_EFF (tx_mod ta))
    by (apply Qmult_lt_0_compat; assumption).
  split; [exact Es|]. split; [lra|]. split; [lra|].
  rewrite Es. split; [|split; [|split; [|split]]].
  - now apply Qdiv_pos_iff.
  - rewrite (Qdiv_pos_iff _ _ Hden), Esig. now apply Qmult_pos_iff.
  - intros Z0. rewrite Esig, Z0. field. lra.
  - intros Hp Hs. rewrite (Qdiv_pos_iff _ _ Hden), Esig.
    apply Qmult_pos_iff; [exact Hk|].
    apply Qmult_lt_0_compat; assumption.
  - intros Z0. rewrite Esig, Z0. field. lra.
Qed.

Lemma sinr_sign_witness :
  exists l,
    tickLocals sampleHost sampleSettings (resetSimulation state) 0%nat
    = Normal l
    /\ 0 <= noisePower l /\ 0 <= interference l
    /\ sinr l == 4000 / 21 /\ 0 < sinr l.
Proof.
  eexists. split; [vm_compute; reflexivity|].
  match goal with |- 0 <= noisePower ?l /\ _ =>
    assert (E : tickLocals sampleHost sampleSettings (resetSimulation state)
                  0%nat = Normal l) by (vm_compute; reflexivity);
    assert (Hn : 0 <= noisePower l) by (vm_compute; discriminate);
    assert (Hi : 0 <= interference l) by (vm_compute; discriminate);
    destruct (sinr_sign sampleHost sampleSettings (resetSimulation state)
                0%nat l E Hn Hi) as (_ & _ & _ & _ & Hpos & _)
  end.
  split; [exact Hn|]. split; [exact Hi|]. split; [reflexivity|].
  apply Hpos. reflexivity.
Defined.

(** A positive txMaxPower is not enough either: where the power of ten is 0
    the SINR is 0 at txMaxPower 20. *)
Example sinr_zero_when_pow_is_zero :
  exists l,
    tickLocals underflowHost sampleSettings (resetSimulation state) 0%nat
    = Normal l
    /\ 0 < cfg_txMaxPower sampleSettings
    /\ 0 <= noisePower l /\ 0 <= interference l /\ sinr l == 0.
Proof.
  eexists. split; [vm_compute; reflexivity|].
  split; [reflexivity|]. split; [vm_compute; discriminate|].
  split; [vm_compute; discriminate|reflexivity].
Qed.

(** C8 as the specification words it fails: with txMaxPower 0 the noise
    power is 20 and the interference 0, both >= 0, and the SINR is
    0 / 21 = 0, not > 0. *)
Lemma sinr_zero_without_tx_power :
  exists l,
    tickLocals sampleHost silentSettings (resetSimulation state) 0%nat
    = Normal l
    /\ 0 <= noisePower l /\ 0 <= interference l
    /\ sinr l == 0 /\ ~ 0 < sinr l.
Proof.
  eexists. split; [vm_compute; reflexivity|].
  split; [vm_compute; discriminate|]. split; [vm_compute; discriminate|].
  split; [reflexivity|]. vm_compute. discriminate.
Qed.

(** ** Selection on an empty table *)

Lemma pickAction_empty (H : Host) (e : Q) (c : nat) :
  fst (pickAction H [] e c) = 0%Z.
Proof.
  unfold pickAction, bind, random.
  destruct (Qltb (Math_random H c) e); [|reflexivity].
  unfold randomIndex, bind, random, ret. cbn [fst length Z.of_nat].
  assert (E : Math_random H (S c) * inject_Z 0 == 0) by ring.
  now rewrite E.
Qed.

(** ** The configured learning rate and the locals *)

(** The locals of a tick do not depend on the configured learning rate. *)
Lemma stepLocals_lr (H : Host) (cfg : Settings) (x : Q) (s : State) (c : nat) :
  stepLocals H (with_lr cfg x) (applySettings (with_lr cfg x) s) c
  = stepLocals H cfg (applySettings cfg s) c.
Proof. reflexivity. Qed.

(** * Further properties of the engine *)

(** ** The action spaces *)

(** X1.  [buildActionSpace] enumerates slot outermost, modulation in the
    middle and power innermost: there are 108 actions, the action at index
    [i] has slot [i / 9], modulation [MODS[(i / 3) mod 3]] and power
    [TX_POWER_LEVELS[i mod 3]], and no action occurs twice. *)
Theorem buildActionSpace_positional (i : nat) :
  (i < 108)%nat ->
  TX_ACTIONS = buildActionSpace
  /\ length buildActionSpace = 108%nat
  /\ nth_error buildActionSpace i
     = Some (mkTxAction (Z.of_nat (i / 9))
               (nth ((i / 3) mod 3) MODS BPSK)
               (nth (i mod 3) TX_POWER_LEVELS 0))
  /\ NoDup buildActionSpace.
Proof.
  intros Hi. split; [reflexivity|]. split; [reflexivity|]. split.
  - do 108 (destruct i as [|i]; [reflexivity|]). lia.
  - apply (NoDup_map_inv
             (fun a => (Z.to_nat (tx_fSlot a) * 9
                        + match tx_mod a with BPSK => 0 | QPSK => 3 | QAM16 => 6
                          end
                        + match Qnum (tx_p a) with
                          | 45%Z => 0 | 72%Z => 1 | _ => 2 end)%nat)).
    change (NoDup (seq 0 108)). apply seq_NoDup.
Qed.

Lemma buildActionSpace_positional_witness :
  (32 < 108)%nat
  /\ nth_error buildActionSpace 32 = Some (mkTxAction 3 QPSK 1.0).
Proof.
  assert (Hi : (32 < 108)%nat) by lia.
  split; [exact Hi|].
  destruct (buildActionSpace_positional 32 Hi) as (_ & _ & E & _).
  exact E.
Defined.

(** X2.  [buildJamActions] enumerates slot outermost, span in the middle and
    power innermost: there are 144 actions, the action at index [i] has slot
    [i / 12], span [JAM_SPANS[(i / 3) mod 4]] and power
    [JAM_POWER_LEVELS[i mod 3]], and no action occurs twice. *)
Theorem buildJamActions_positional (i : nat) :
  (i < 144)%nat ->
  JAM_ACTIONS = buildJamActions
  /\ length buildJamActions = 144%nat
  /\ nth_error buildJamActions i
     = Some (mkJamAction (Z.of_nat (i / 12))
               (nth ((i / 3) mod 4) JAM_SPANS 0%Z)
               (nth (i mod 3) JAM_POWER_LEVELS 0))
  /\ NoDup buildJamActions.
Proof.
  intros Hi. split; [reflexivity|]. split; [reflexivity|]. split.
  - do 144 (destruct i as [|i]; [reflexivity|]). lia.
  - apply (NoDup_map_inv
             (fun a => (Z.to_nat (jam_fSlot a) * 12
                        + match jam_span a with
                          | 2%Z => 0 | 4%Z => 3 | 8%Z => 6 | _ => 9 end
                        + match Qnum (jam_p a) with
                          | 35%Z => 0 | 65%Z => 1 | _ => 2 end)%nat)).
    change (NoDup (seq 0 144)). apply seq_NoDup.
Qed.

Lemma buildJamActions_positional_witness :
  (43 < 144)%nat
  /\ nth_error buildJamActions 43 = Some (mkJamAction 3 8 0.65).
Proof.
  assert (Hi : (43 < 144)%nat) by lia.
  split; [exact Hi|].
  destruct (buildJamActions_positional 43 Hi) as (_ & _ & E & _).
  exact E.
Defined.

(** ** Tables: initialisation and greedy choice *)

Lemma qread_repeat (v : Number) (n : nat) (i : Z) :
  qread (repeat v n) i
  = if ((0 <=? i) && (i <? Z.of_nat n))%Z then v else NaN.
Proof.
  unfold qread, aget.
  destruct (Z.ltb_spec i 0) as [Hneg|Hpos].
  - destruct (Z.leb_spec 0 i); [lia|reflexivity].
  - destruct (Z.leb_spec 0 i); [|lia]. cbn [andb].
    destruct (Z.ltb_spec i (Z.of_nat n)) as [Hlt|Hge].
    + rewrite nth_error_repeat by lia. reflexivity.
    + destruct (nth_error (repeat v n) (Z.to_nat i)) eqn:E; [|reflexivity].
      assert (Z.to_nat i < length (repeat v n))%nat
        by (apply nth_error_Some; congruence).
      rewrite repeat_length in *. lia.
Qed.

Lemma argMax_from_stays (arr rest : list Number) : forall i best,
  Forall (fun x => num_gtb x (qread arr best) = false) rest ->
  argMax_from arr rest i best = best.
Proof.
  induction rest as [|x rest IH]; intros i best Hall; [reflexivity|].
  inversion Hall as [|? ? Hx Hrest]; subst.
  cbn [argMax_from]. rewrite Hx. now apply IH.
Qed.

(** X3.  [initQ] leaves a table of exactly [size] cells, all 0, whatever the
    table held before (longer, shorter, or with NaN cells): reads inside
    give 0, reads outside give NaN (undefined), and the greedy choice on it
    is index 0. *)
Theorem initQ_resets (table : list Number) (size : nat) :
  length (initQ table size) = size
  /\ (forall i, (0 <= i < Z.of_nat size)%Z ->
        qread (initQ table size) i = Fin 0)
  /\ (forall i, (i < 0 \/ Z.of_nat size <= i)%Z ->
        qread (initQ table size) i = NaN)
  /\ argMax (initQ table size) = 0%Z.
Proof.
  rewrite initQ_zeros. split; [apply repeat_length|]. split; [|split].
  - intros i Hi. rewrite qread_repeat.
    destruct (Z.leb_spec 0 i); [|lia].
    destruct (Z.ltb_spec i (Z.of_nat size)); [reflexivity|lia].
  - intros i Hi. rewrite qread_repeat.
    destruct (Z.leb_spec 0 i); [|reflexivity].
    destruct (Z.ltb_spec i (Z.of_nat size)); [lia|reflexivity].
  - unfold argMax. apply argMax_from_stays.
    destruct size as [|size]; [constructor|].
    cbn [repeat tl]. change (Fin 0 :: repeat (Fin 0) size)
      with (repeat (Fin 0) (S size)).
    rewrite qread_repeat. cbn [Z.leb andb].
    destruct (Z.ltb_spec 0 (Z.of_nat (S size))); [|lia].
    apply Forall_forall. intros x Hx. apply repeat_spec in Hx. now subst.
Qed.

Lemma qread_map_Fin (xs : list Q) (b : nat) :
  (b < length xs)%nat -> qread (map Fin xs) (Z.of_nat b) = Fin (nth b xs 0).
Proof.
  intros Hb. unfold qread, aget.
  destruct (Z.ltb_spec (Z.of_nat b) 0); [lia|].
  rewrite Nat2Z.id, nth_error_map.
  now rewrite (nth_error_nth' xs 0 Hb).
Qed.

(** The loop of [argMax] on a table of finite cells: [pre] has been scanned,
    [best] is the first maximum of it. *)
Lemma argMax_from_first_max (xs : list Q) : forall (rest pre : list Q) best,
  xs = pre ++ rest ->
  (best < length pre)%nat ->
  (forall j, (j < length pre)%nat -> nth j xs 0 <= nth best xs 0) ->
  (forall j, (j < best)%nat -> nth j xs 0 < nth best xs 0) ->
  exists r,
    argMax_from (map Fin xs) (map Fin rest) (Z.of_nat (length pre))
      (Z.of_nat best) = Z.of_nat r
    /\ (r < length xs)%nat
    /\ (forall j, (j < length xs)%nat -> nth j xs 0 <= nth r xs 0)
    /\ (forall j, (j < r)%nat -> nth j xs 0 < nth r xs 0).
Proof.
  induction rest as [|y rest IH]; intros pre best Exs Hb Hmax Hfirst.
  - rewrite app_nil_r in Exs. subst pre. exists best. now repeat split.
  - assert (Hlen : length xs = (length pre + S (length rest))%nat)
      by (rewrite Exs, length_app; reflexivity).
    assert (Ey : nth (length pre) xs 0 = y) by (rewrite Exs; apply nth_middle).
    assert (Exs' : xs = (pre ++ [y]) ++ rest)
      by (rewrite <- app_assoc; exact Exs).
    assert (Hl' : length (pre ++ [y]) = S (length pre))
      by (rewrite length_app; simpl; lia).
    cbn [map argMax_from].
    rewrite qread_map_Fin by lia. cbn [num_gtb].
    replace (Z.of_nat (length pre) + 1)%Z with (Z.of_nat (length (pre ++ [y])))
      by lia.
    destruct (Qlt_le_dec (nth best xs 0) y) as [Hgt|Hle].
    + apply (IH (pre ++ [y]) (length pre) Exs'); [lia| |].
      * intros j Hj. rewrite Ey.
        destruct (Nat.eq_dec j (length pre)) as [->|Hne].
        -- rewrite Ey. apply Qle_refl.
        -- apply Qlt_le_weak. eapply Qle_lt_trans; [apply Hmax; lia|exact Hgt].
      * intros j Hj. rewrite Ey.
        eapply Qle_lt_trans; [apply Hmax; lia|exact Hgt].
    + apply (IH (pre ++ [y]) best Exs'); [lia| |exact Hfirst].
      intros j Hj.
      destruct (Nat.eq_dec j (length pre)) as [->|Hne].
      * now rewrite Ey.
      * apply Hmax. lia.
Qed.

(** X4.  On a non-empty table of finite cells [argMax] returns the index of
    a largest cell, and the first such index: every cell is at most the
    chosen one, and every cell before it is strictly smaller. *)
Theorem argMax_first_maximum (x : Q) (xs : list Q) :
  exists r,
    argMax (map Fin (x :: xs)) = Z.of_nat r
    /\ (r < length (x :: xs))%nat
    /\ (forall j, (j < length (x :: xs))%nat ->
          nth j (x :: xs) 0 <= nth r (x :: xs) 0)
    /\ (forall j, (j < r)%nat -> nth j (x :: xs) 0 < nth r (x :: xs) 0).
Proof.
  unfold argMax. cbn [map tl].
  apply (argMax_from_first_max (x :: xs) xs [x] 0%nat).
  - reflexivity.
  - simpl. lia.
  - intros j Hj. simpl in Hj. assert (j = 0%nat) by lia. subst.
    apply Qle_refl.
  - intros j Hj. lia.
Qed.

(** The loop of [argMax] never moves to a NaN cell. *)
Lemma argMax_from_finite (arr : list Number) : forall rest pre best,
  arr = pre ++ rest ->
  (best = 0%Z \/ exists v, qread arr best = Fin v) ->
  let r := argMax_from arr rest (Z.of_nat (length pre)) best in
  r = 0%Z \/ exists v, qread arr r = Fin v.
Proof.
  induction rest as [|y rest IH]; intros pre best Earr Hb; [exact Hb|].
  cbn [argMax_from].
  assert (Earr' : arr = (pre ++ [y]) ++ rest)
    by (rewrite <- app_assoc; exact Earr).
  replace (Z.of_nat (length pre) + 1)%Z with (Z.of_nat (length (pre ++ [y])))
    by (rewrite length_app; simpl; lia).
  apply (IH (pre ++ [y]) _ Earr').
  destruct (num_gtb y (qread arr best)) eqn:G; [|exact Hb].
  right. destruct y as [v|]; [|discriminate]. exists v.
  unfold qread, aget. destruct (Z.ltb_spec (Z.of_nat (length pre)) 0); [lia|].
  rewrite Nat2Z.id, Earr, nth_error_app2, Nat.sub_diag by lia. reflexivity.
Qed.

(** X5.  NaN cells and the greedy choice: a comparison with NaN is false, so
    a table whose cell 0 is NaN makes [argMax] return 0 whatever the other
    cells hold, and on any table [argMax] returns either 0 or the index of a
    finite cell. *)
Theorem argMax_NaN (arr : list Number) :
  (qread arr 0 = NaN -> argMax arr = 0%Z)
  /\ (argMax arr = 0%Z \/ exists v, qread arr (argMax arr) = Fin v).
Proof.
  split.
  - intros E. unfold argMax. apply argMax_from_stays.
    rewrite E. apply Forall_forall. intros x _. now destruct x.
  - unfold argMax. destruct arr as [|a arr]; [now left|].
    cbn [tl]. apply (argMax_from_finite (a :: arr) arr [a] 0%Z);
      [reflexivity|now left].
Qed.

Lemma argMax_NaN_witness :
  qread [NaN; Fin 5; Fin 7] 0 = NaN /\ argMax [NaN; Fin 5; Fin 7] = 0%Z.
Proof.
  assert (E : qread [NaN; Fin 5; Fin 7] 0 = NaN) by reflexivity.
  split; [exact E|].
  exact (proj1 (argMax_NaN [NaN; Fin 5; Fin 7]) E).
Defined.

Lemma initQ_resets_witness :
  qread (initQ [NaN; Fin 3] 4) 3 = Fin 0
  /\ qread (initQ [NaN; Fin 3; Fin 1] 2) 2 = NaN.
Proof.
  destruct (initQ_resets [NaN; Fin 3] 4) as (_ & Hin & _ & _).
  destruct (initQ_resets [NaN; Fin 3; Fin 1] 2) as (_ & _ & Hout & _).
  split; [apply Hin; simpl; lia|apply Hout; simpl; lia].
Defined.

Lemma argMax_first_maximum_witness :
  argMax (map Fin [3; 7; 7; 1]) = 1%Z.
Proof.
  destruct (argMax_first_maximum 3 [7; 7; 1]) as (r & E & Hr & Hmax & Hfirst).
  rewrite E. f_equal.
  assert (H14 : (1 < 4)%nat) by lia.
  destruct r as [|[|[|[|r]]]]; [|reflexivity| | |simpl in Hr; lia].
  - specialize (Hmax 1%nat H14). vm_compute in Hmax. now contradiction Hmax.
  - assert (H12 : (1 < 2)%nat) by lia.
    specialize (Hfirst 1%nat H12). vm_compute in Hfirst. discriminate.
  - assert (H13 : (1 < 3)%nat) by lia.
    specialize (Hfirst 1%nat H13). vm_compute in Hfirst. discriminate.
Defined.

(** ** Epsilon-greedy selection *)

(** X6.  [pickAction] with draws in [0, 1): the result is an index of the
    table (0 for the empty table); it draws once and is the greedy choice
    when the draw is not below [eps], in particular whenever [eps <= 0]; it
    draws twice and is [floor(second draw * length)] when the first draw is
    below [eps], in particular whenever [eps >= 1]. *)
Theorem pickAction_modes (H : Host) (tbl : list Number) (e : Q) (c : nat) :
  unit_tape H ->
  (0 <= fst (pickAction H tbl e c) < Z.max 1 (Z.of_nat (length tbl)))%Z
  /\ (e <= Math_random H c ->
      pickAction H tbl e c = (argMax tbl, S c))
  /\ (Math_random H c < e ->
      pickAction H tbl e c
      = (Qfloor (Math_random H (S c) * inject_Z (Z.of_nat (length tbl))),
         S (S c)))
  /\ (e <= 0 -> pickAction H tbl e c = (argMax tbl, S c))
  /\ (1 <= e ->
      pickAction H tbl e c
      = (Qfloor (Math_random H (S c) * inject_Z (Z.of_nat (length tbl))),
         S (S c))).
Proof.
  intros U. destruct (U c) as [R0 R1].
  assert (G : e <= Math_random H c ->
              pickAction H tbl e c = (argMax tbl, S c)).
  { intros Hle. unfold pickAction, bind, random, Qltb.
    destruct (Qlt_le_dec (Math_random H c) e) as [Hlt|]; [|reflexivity].
    exfalso. exact (Qlt_not_le _ _ Hlt Hle). }
  assert (X : Math_random H c < e ->
              pickAction H tbl e c
              = (Qfloor (Math_random H (S c)
                         * inject_Z (Z.of_nat (length tbl))), S (S c))).
  { intros Hlt. unfold pickAction, bind, random, Qltb.
    destruct (Qlt_le_dec (Math_random H c) e) as [|Hle]; [reflexivity|].
    exfalso. exact (Qlt_not_le _ _ Hlt Hle). }
  split; [now apply pickAction_range|].
  split; [exact G|]. split; [exact X|]. split.
  - intros He. apply G. lra.
  - intros He. apply X. lra.
Qed.

Lemma pickAction_modes_witness :
  unit_tape sampleHost
  /\ pickAction sampleHost [Fin 1; Fin 4; Fin 2] 0 5%nat = (1%Z, 6%nat)
  /\ pickAction sampleHost [Fin 1; Fin 4; Fin 2] 1 5%nat = (0%Z, 7%nat).
Proof.
  split; [exact sampleHost_unit|].
  destruct (pickAction_modes sampleHost [Fin 1; Fin 4; Fin 2] 0 5%nat
              sampleHost_unit) as (_ & _ & _ & G & _).
  destruct (pickAction_modes sampleHost [Fin 1; Fin 4; Fin 2] 1 5%nat
              sampleHost_unit) as (_ & _ & _ & _ & X).
  split.
  - rewrite G; [reflexivity|apply Qle_refl].
  - rewrite X; [reflexivity|apply Qle_refl].
Defined.

(** ** The incremental update *)

(** X7.  One update of a finite cell [x] towards [reward] at a rate in
    [0, 1] gives a finite cell between [x] and [reward]; the distance to the
    reward shrinks by the factor [1 - lr]; rate 0 leaves the cell, rate 1
    replaces it by the reward.  A NaN cell stays NaN at any rate. *)
Theorem td_between (rate reward x : Q) :
  0 <= rate -> rate <= 1 ->
  exists y,
    td rate reward (Fin x) = Fin y
    /\ Qmin x reward <= y /\ y <= Qmax x reward
    /\ y - reward == (1 - rate) * (x - reward)
    /\ (rate == 0 -> y == x)
    /\ (rate == 1 -> y == reward)
    /\ td rate reward NaN = NaN.
Proof.
  intros H0 H1. exists (x + rate * (reward - x)).
  split; [reflexivity|].
  assert (E : x + rate * (reward - x) - reward == (1 - rate) * (x - reward))
    by ring.
  destruct (Qlt_le_dec x reward) as [Hlt|Hle].
  - assert (A : 0 <= rate * (reward - x))
      by (apply Qmult_le_0_compat; lra).
    assert (B : 0 <= (1 - rate) * (reward - x))
      by (apply Qmult_le_0_compat; lra).
    rewrite Q.min_l, Q.max_r by lra.
    repeat split; try lra.
    + intros Z0. rewrite Z0. ring.
    + intros Z1. rewrite Z1. ring.
  - assert (A : 0 <= rate * (x - reward))
      by (apply Qmult_le_0_compat; lra).
    assert (B : 0 <= (1 - rate) * (x - reward))
      by (apply Qmult_le_0_compat; lra).
    rewrite Q.min_r, Q.max_l by lra.
    repeat split; try lra.
    + intros Z0. rewrite Z0. ring.
    + intros Z1. rewrite Z1. ring.
Qed.

Lemma td_between_witness :
  0 <= 0.18 /\ 0.18 <= 1
  /\ exists y, td 0.18 10 (Fin 0) = Fin y /\ y == 1.8.
Proof.
  assert (H0 : 0 <= 0.18) by (vm_compute; discriminate).
  assert (H1 : 0.18 <= 1) by (vm_compute; discriminate).
  split; [exact H0|]. split; [exact H1|].
  destruct (td_between 0.18 10 0 H0 H1) as (y & E & _).
  exists y. split; [exact E|].
  vm_compute in E. injection E as <-. reflexivity.
Defined.

(** ** What a tick writes *)

Lemma qread_nth (l : list Number) (i : Z) :
  (0 <= i)%Z -> qread l i = nth (Z.to_nat i) l NaN.
Proof.
  intros Hi. unfold qread, aget. destruct (Z.ltb_spec i 0); [lia|].
  destruct (nth_error l (Z.to_nat i)) eqn:E.
  - symmetry. now apply nth_error_nth.
  - symmetry. apply nth_overflow. now apply nth_error_None.
Qed.

Lemma set_nth_other (l : list Number) : forall (i j : nat) (v : Number),
  i <> j -> nth j (set_nth l i v) NaN = nth j l NaN.
Proof.
  induction l as [|x l IH]; intros i j v Hij.
  - revert j Hij. induction i as [|i IHi]; intros j Hij.
    + destruct j as [|[|j]]; [lia|reflexivity|reflexivity].
    + destruct j as [|j]; [reflexivity|].
      cbn [set_nth nth]. rewrite IHi by lia. now destruct j.
  - destruct i as [|i], j as [|j]; cbn [set_nth nth];
      [lia|reflexivity|reflexivity|]. apply IH. lia.
Qed.

Lemma qread_qwrite_other (l : list Number) (i j : Z) (v : Number) :
  i <> j -> qread (qwrite l i v) j = qread l j.
Proof.
  intros Hij. unfold qwrite. destruct (Z.ltb_spec i 0); [reflexivity|].
  destruct (Z.ltb_spec j 0) as [Hj|Hj].
  - unfold qread, aget. destruct (Z.ltb_spec j 0); [reflexivity|lia].
  - rewrite !qread_nth by lia. apply set_nth_other. lia.
Qed.

(** X8.  A tick writes at most one cell of each value table, the selected
    one: every other cell of the transmitter's and of the jammer's table
    reads as before, and a table that was not empty keeps its length. *)
Theorem tick_writes_selected_cell_only (H : Host) (cfg : Settings)
    (s : State) (c : nat) :
  unit_tape H -> tables_fit s ->
  exists l s' c',
    tickLocals H cfg s c = Normal l
    /\ stepSimulation H cfg s c = (Normal s', c')
    /\ (forall j, j <> txIdx l ->
          qread (q (tx s')) j = qread (q (tx s)) j)
    /\ (forall j, j <> jamIdx l ->
          qread (q (jam s')) j = qread (q (jam s)) j)
    /\ (q (tx s) <> [] -> length (q (tx s')) = length (q (tx s)))
    /\ (q (jam s) <> [] -> length (q (jam s')) = length (q (jam s))).
Proof.
  intros U F.
  destruct (tick_selections H cfg s c U F) as (l & E & Ei & Ej).
  pose proof (pickAction_range H (q (tx s))
                (if cfg_freeze cfg then 0 else cfg_eps cfg) c U) as Ri.
  rewrite <- Ei in Ri.
  exists l, (record H (learn (applySettings cfg s) l) l). eexists.
  split; [exact (tickLocals_of_step H cfg s c _ l E)|].
  split; [exact (stepSimulation_of_locals H cfg s c _ l E)|].
  cbn [record tx jam set_lastAction q]. unfold learn.
  cbn [applySettings freezeLearning jamAdaptive tx jam q lr].
  destruct (cfg_freeze cfg) eqn:Fz.
  { repeat split; reflexivity. }
  cbn [tx jam set_q q]. split; [|split; [|split]].
  - intros j Hj. apply qread_qwrite_other. congruence.
  - intros j Hj. destruct (cfg_jamAdaptive cfg); [|reflexivity].
    cbn [set_q q]. apply qread_qwrite_other. congruence.
  - intros Hne. rewrite qwrite_length by lia.
    destruct (q (tx s)) as [|x0 tbl]; [congruence|].
    cbn [length] in *. lia.
  - intros Hne. destruct (cfg_jamAdaptive cfg) eqn:Ad; [|reflexivity].
    cbn [set_q q].
    pose proof (pickAction_range H (q (jam s)) (eps (jam s))
                  (snd (pickAction H (q (tx s)) (cfg_eps cfg) c)) U) as Rj.
    rewrite <- Ej in Rj. rewrite qwrite_length by lia.
    destruct (q (jam s)) as [|x0 tbl]; [congruence|].
    cbn [length] in *. lia.
Qed.

Lemma tick_writes_selected_cell_only_witness :
  unit_tape sampleHost /\ tables_fit (resetSimulation state)
  /\ exists s' c',
       stepSimulation sampleHost sampleSettings (resetSimulation state) 0%nat
       = (Normal s', c')
       /\ qread (q (tx s')) 31 = Fin 0 /\ qread (q (tx s')) 33 = Fin 0
       /\ length (q (tx s')) = 108%nat.
Proof.
  assert (F : tables_fit (resetSimulation state))
    by (unfold tables_fit; vm_compute; split; apply le_n).
  split; [exact sampleHost_unit|]. split; [exact F|].
  destruct (tick_writes_selected_cell_only sampleHost sampleSettings
              (resetSimulation state) 0%nat sampleHost_unit F)
    as (l & s' & c' & A & B & Htx & _ & Hlen & _).
  exists s', c'. split; [exact B|].
  vm_compute in A. injection A as <-.
  split; [|split].
  - rewrite Htx; [reflexivity|discriminate].
  - rewrite Htx; [reflexivity|discriminate].
  - rewrite Hlen; [reflexivity|discriminate].
Defined.

(** ** Invariants of the page *)

Lemma learn_lengths (H : Host) (cfg : Settings) (s : State) (c c' : nat)
    (l : Locals) :
  length (q (tx s)) = length TX_ACTIONS ->
  length (q (jam s)) = length JAM_ACTIONS ->
  stepLocals H cfg s c = (Normal l, c') ->
  length (q (tx (learn s l))) = length TX_ACTIONS
  /\ length (q (jam (learn s l))) = length JAM_ACTIONS.
Proof.
  intros Ltx Ljam E.
  destruct (stepLocals_inv H cfg s c c' l E) as (ta & ja & Rt & Rj & -> & _).
  apply aget_range in Rt. apply aget_range in Rj.
  unfold learn. rewrite physics_txIdx, physics_jamIdx.
  destruct (freezeLearning s); [now split|].
  cbn [tx jam q set_q]. split.
  - rewrite qwrite_length by lia. lia.
  - destruct (jamAdaptive s); [|assumption].
    cbn [q set_q]. rewrite qwrite_length by lia. lia.
Qed.

Lemma reachable_lengths (H : Host) (s : State) :
  reachable H s ->
  length (q (tx s)) = length TX_ACTIONS
  /\ length (q (jam s)) = length JAM_ACTIONS.
Proof.
  induction 1 as [ | s R IH | s cfg c s' c' R IH E | s c R IH
                   | s R IH | s b R IH | s b R IH ]; try exact IH.
  - unfold resetSimulation. cbn [tx jam q set_q].
    rewrite !initQ_zeros, !repeat_length. now split.
  - unfold resetSimulation. cbn [tx jam q set_q].
    rewrite !initQ_zeros, !repeat_length. now split.
  - destruct IH as [Ltx Ljam].
    destruct (stepSimulation_inv H cfg s s' c c' E) as (l & El & ->).
    exact (learn_lengths H cfg (applySettings cfg s) c c' l Ltx Ljam El).
  - destruct IH as [Ltx Ljam].
    unfold mutateJammer, bind, ret.
    pose proof (perturb_length H (length (q (jam s))) 0 (q (jam s)) c) as P.
    destruct (perturb H (length (q (jam s))) 0 (q (jam s)) c) as [tbl c1].
    cbn [fst] in *. split; [exact Ltx|].
    cbn [jam q set_q]. rewrite P; [exact Ljam|lia|simpl; lia].
Qed.

(** X9.  The value tables never change size: in every state the page can
    reach, the transmitter's table has one cell per transmitter action (108)
    and the jammer's one per jammer action (144). *)
Theorem reachable_table_lengths (H : Host) (s : State) :
  reachable H s ->
  length (q (tx s)) = length TX_ACTIONS
  /\ length (q (jam s)) = length JAM_ACTIONS
  /\ length TX_ACTIONS = 108%nat /\ length JAM_ACTIONS = 144%nat.
Proof.
  intros R. destruct (reachable_lengths H s R) as [Ltx Ljam].
  now repeat split.
Qed.

Lemma reachable_table_lengths_witness :
  reachable sampleHost warmState
  /\ length (q (tx warmState)) = 108%nat
  /\ length (q (jam warmState)) = 144%nat.
Proof.
  assert (R : reachable sampleHost warmState).
  { apply (reach_tick sampleHost (resetSimulation state) sampleSettings
             0%nat warmState 3%nat (reach_main sampleHost)).
    vm_compute. reflexivity. }
  split; [exact R|].
  destruct (reachable_table_lengths sampleHost warmState R)
    as (Ltx & Ljam & _).
  split; [exact Ltx|exact Ljam].
Defined.

Lemma reachable_ticks (H : Host) (s : State) :
  reachable H s -> exists n, t s = Z.of_nat n /\ ticks s = window n.
Proof.
  induction 1 as [ | s R IH | s cfg c s' c' R IH E | s c R IH
                   | s R IH | s b R IH | s b R IH ]; try exact IH.
  - now exists 0%nat.
  - now exists 0%nat.
  - destruct IH as (n & Ht & Hw). exists (S n).
    exact (step_history H cfg s s' c c' n E Ht Hw).
  - destruct IH as (n & Ht & Hw). exists n.
    unfold mutateJammer, bind, ret.
    destruct (perturb H (length (q (jam s))) 0 (q (jam s)) c) as [tbl c1].
    now split.
Qed.

(** X10.  In every state the page can reach (resets, ticks and mutations in
    any order) the tick counter is a natural number n, the history holds
    exactly the last min(n, 180) tick numbers before n in ascending order,
    and it is never longer than HISTORY_POINTS. *)
Theorem reachable_history (H : Host) (s : State) :
  reachable H s ->
  exists n,
    t s = Z.of_nat n
    /\ ticks s = window n
    /\ (length (history s) <= HISTORY_POINTS)%nat
    /\ (forall e, In e (history s) ->
          (t s - Z.of_nat HISTORY_POINTS <= h_t e < t s)%Z).
Proof.
  intros R.
  destruct (reachable_ticks H s R) as (n & Ht & Hw). exists n.
  split; [exact Ht|]. split; [exact Hw|]. split.
  - unfold ticks in Hw. rewrite <- (length_map h_t), Hw, window_length. lia.
  - intros e He. apply (in_map h_t) in He. fold (ticks s) in He.
    rewrite Hw in He. apply window_In in He. rewrite Ht. lia.
Qed.

Lemma reachable_history_witness :
  reachable sampleHost warmState /\ ticks warmState = [0%Z].
Proof.
  assert (R : reachable sampleHost warmState).
  { apply (reach_tick sampleHost (resetSimulation state) sampleSettings
             0%nat warmState 3%nat (reach_main sampleHost)).
    vm_compute. reflexivity. }
  split; [exact R|].
  destruct (reachable_history sampleHost warmState R) as (n & Ht & Hw & _).
  change (t warmState) with 1%Z in Ht.
  assert (En : n = 1%nat) by lia. subst n.
  rewrite Hw. reflexivity.
Defined.

Lemma TX_ACTIONS_slot (a : TxAction) :
  In a TX_ACTIONS -> (0 <= tx_fSlot a < TX_FREQ_SLOTS)%Z.
Proof.
  assert (A : forallb (fun a => (0 <=? tx_fSlot a) && (tx_fSlot a <? 12))%Z
                TX_ACTIONS = true) by (vm_compute; reflexivity).
  rewrite forallb_forall in A. intros Hin. specialize (A a Hin).
  unfold TX_FREQ_SLOTS. lia.
Qed.

Lemma JAM_ACTIONS_facts (a : JamAction) :
  In a JAM_ACTIONS ->
  (0 <= jam_fSlot a < TX_FREQ_SLOTS)%Z /\ (2 <= jam_span a <= 12)%Z
  /\ 0 < jam_p a /\ jam_p a <= 1.
Proof.
  assert (A : forallb (fun a => (0 <=? jam_fSlot a) && (jam_fSlot a <? 12)
                                && (2 <=? jam_span a) && (jam_span a <=? 12)
                                && Qltb 0 (jam_p a)
                                && negb (Qltb 1 (jam_p a)))%Z
                JAM_ACTIONS = true) by (vm_compute; reflexivity).
  rewrite forallb_forall in A. intros Hin. specialize (A a Hin).
  unfold TX_FREQ_SLOTS, Qltb in *.
  destruct (Qlt_le_dec 0 (jam_p a)); [|rewrite andb_false_r in A; discriminate].
  destruct (Qlt_le_dec 1 (jam_p a)); [rewrite andb_false_r in A; discriminate|].
  repeat split; try assumption; lia.
Qed.

Lemma slot_bin_range (slot : Z) :
  (0 <= slot < TX_FREQ_SLOTS)%Z ->
  mapFreqSlotToBin slot = (4 * slot + 2)%Z
  /\ (0 <= mapFreqSlotToBin slot < BINS)%Z.
Proof.
  unfold mapFreqSlotToBin, BINS, TX_FREQ_SLOTS. intros Hs.
  change (48 / 12)%Z with 4%Z. change (4 / 2)%Z with 2%Z. lia.
Qed.

Lemma outcomeOf_ok (H : Host) (cfg : Settings) (tick i j : Z)
    (ta : TxAction) (ja : JamAction) :
  In ta TX_ACTIONS -> In ja JAM_ACTIONS ->
  outcome_ok (outcomeOf H tick (physics H cfg i ta j ja)).
Proof.
  intros Hta Hja. unfold outcome_ok, outcomeOf, physics.
  cbn [h_tx h_jam h_overlapFactor last_txAct last_jamAct last_txBin
       last_jamCenter last_spanBins txAct jamAct txBin jamCenter jamSpanBins
       overlapFactor].
  pose proof (slot_bin_range _ (TX_ACTIONS_slot ta Hta)) as [_ Bt].
  pose proof (JAM_ACTIONS_facts ja Hja) as (Sj & _).
  pose proof (slot_bin_range _ Sj) as [_ Bj].
  repeat split; try assumption; lia.
Qed.

Lemma pushBounded_In (hist : list TickOutcome) (e x : TickOutcome) :
  In x (pushBounded hist e) -> x = e \/ In x hist.
Proof.
  unfold pushBounded.
  destruct (HISTORY_POINTS <? length (hist ++ [e]))%nat; intros Hin.
  - destruct hist as [|y hist]; cbn [app tl] in Hin.
    + contradiction.
    + apply in_app_or in Hin. destruct Hin as [Hin|[->|[]]].
      * right. now right.
      * now left.
  - apply in_app_or in Hin. destruct Hin as [Hin|[->|[]]]; [now right|now left].
Qed.

(** X11.  In every state the page can reach, each history entry and each
    agent's last action is well formed: its actions are members of the action
    spaces, its transmitter bin and jammer centre are the resolved slots and
    lie in [0, BINS), and its overlap factor is [computeOverlap] of exactly
    those bins and span, a value in [0, 1). *)
Theorem reachable_outcomes_ok (H : Host) (s : State) :
  reachable H s ->
  (forall e, In e (history s) ->
     outcome_ok e /\ 0 <= h_overlapFactor e /\ h_overlapFactor e < 1)
  /\ (forall la, lastAction (tx s) = Some la ->
        In (last_txAct la) TX_ACTIONS
        /\ last_txBin la = mapFreqSlotToBin (tx_fSlot (last_txAct la))
        /\ (0 <= last_txBin la < BINS)%Z)
  /\ (forall la, lastAction (jam s) = Some la ->
        In (last_jamAct la) JAM_ACTIONS
        /\ last_jamCenter la = mapFreqSlotToBin (jam_fSlot (last_jamAct la))
        /\ (0 <= last_jamCenter la < BINS)%Z).
Proof.
  intros R.
  assert (I : (forall e, In e (history s) -> outcome_ok e)
    /\ (forall la, lastAction (tx s) = Some la ->
          In (last_txAct la) TX_ACTIONS
          /\ last_txBin la = mapFreqSlotToBin (tx_fSlot (last_txAct la))
          /\ (0 <= last_txBin la < BINS)%Z)
    /\ (forall la, lastAction (jam s) = Some la ->
          In (last_jamAct la) JAM_ACTIONS
          /\ last_jamCenter la = mapFreqSlotToBin (jam_fSlot (last_jamAct la))
          /\ (0 <= last_jamCenter la < BINS)%Z)).
  { induction R as [ | s R IH | s cfg c s' c' R IH E | s c R IH
                     | s R IH | s b R IH | s b R IH ]; try exact IH.
    - repeat split; try contradiction; discriminate.
    - destruct IH as (_ & Ltx & Ljam). split; [intros e []|].
      split; [exact Ltx|exact Ljam].
    - destruct IH as (Hh & Ltx & Ljam).
      destruct (stepSimulation_inv H cfg s s' c c' E) as (l & El & ->).
      destruct (stepLocals_inv H cfg _ c c' l El)
        as (ta & ja & Rt & Rj & Ep & _).
      apply aget_In in Rt. apply aget_In in Rj.
      destruct (learn_frame (applySettings cfg s) l) as [Et Eh].
      assert (Ok : outcome_ok
                     (outcomeOf H (t (learn (applySettings cfg s) l)) l))
        by (rewrite Ep at 2; now apply outcomeOf_ok).
      cbn [record history tx jam set_lastAction lastAction].
      split; [|split].
      + intros e He. apply pushBounded_In in He. destruct He as [->|He].
        * exact Ok.
        * apply Hh. now rewrite Eh in He.
      + intros la Ela. injection Ela as <-.
        destruct Ok as (A & _ & B & _ & C & _). exact (conj A (conj B C)).
      + intros la Ela. injection Ela as <-.
        destruct Ok as (_ & A & _ & B & _ & C & _).
        exact (conj A (conj B C)).
    - destruct IH as (Hh & Ltx & Ljam).
      unfold mutateJammer, bind, ret.
      destruct (perturb H (length (q (jam s))) 0 (q (jam s)) c) as [tbl c1].
      exact (conj Hh (conj Ltx Ljam)). }
  destruct I as (Hh & Ltx & Ljam).
  split; [|split; [exact Ltx|exact Ljam]].
  intros e He. pose proof (Hh e He) as Ok. split; [exact Ok|].
  destruct Ok as (_ & _ & _ & _ & Bt & _ & ->).
  apply computeOverlap_bounds. exact Bt.
Qed.

Lemma reachable_outcomes_ok_witness :
  reachable sampleHost warmState
  /\ exists la, lastAction (tx warmState) = Some la /\ last_txBin la = 14%Z.
Proof.
  assert (R : reachable sampleHost warmState).
  { apply (reach_tick sampleHost (resetSimulation state) sampleSettings
             0%nat warmState 3%nat (reach_main sampleHost)).
    vm_compute. reflexivity. }
  split; [exact R|].
  destruct (reachable_outcomes_ok sampleHost warmState R) as (_ & Ltx & _).
  eexists. split; [vm_compute; reflexivity|].
  match goal with |- last_txBin ?la = _ =>
    destruct (Ltx la eq_refl) as (_ & E & _); rewrite E end.
  reflexivity.
Defined.

(** ** The "mutate" button *)

Lemma perturb_fill (H : Host) : forall (rest pre : list Number) (c : nat),
  perturb H (length rest) (Z.of_nat (length pre)) (pre ++ rest) c
  = (pre ++ map (fun k => Fin (mutated (Math_random H (c + k))))
              (seq 0 (length rest)),
     (c + length rest)%nat).
Proof.
  induction rest as [|y rest IH]; intros pre c.
  - cbn [length perturb seq map]. unfold ret.
    now rewrite Nat.add_0_r.
  - cbn [length perturb]. unfold bind, random.
    unfold qwrite. destruct (Z.ltb_spec (Z.of_nat (length pre)) 0); [lia|].
    rewrite Nat2Z.id, set_nth_middle.
    replace (pre ++ Fin ((Math_random H c - 0.5) * 4) :: rest)
      with ((pre ++ [Fin (mutated (Math_random H c))]) ++ rest)
      by (rewrite <- app_assoc; reflexivity).
    replace (Z.of_nat (length pre) + 1)%Z
      with (Z.of_nat (length (pre ++ [Fin (mutated (Math_random H c))])))
      by (rewrite length_app; simpl; lia).
    rewrite IH. rewrite <- app_assoc. cbn [app seq map].
    rewrite Nat.add_0_r, <- seq_shift, map_map.
    f_equal; [|lia]. do 2 f_equal. apply map_ext. intros k.
    now rewrite Nat.add_succ_r.
Qed.

Lemma mutated_range (r : Q) :
  0 <= r -> r < 1 -> - (2) <= mutated r /\ mutated r < 2.
Proof. intros H0 H1. unfold mutated. split; lra. Qed.

Lemma mutateJammer_table (H : Host) (s : State) (c : nat) :
  q (jam (fst (mutateJammer H s c)))
  = map (fun k => Fin (mutated (Math_random H (c + k))))
        (seq 0 (length (q (jam s))))
  /\ snd (mutateJammer H s c) = (c + length (q (jam s)))%nat.
Proof.
  unfold mutateJammer, bind, ret.
  pose proof (perturb_fill H (q (jam s)) [] c) as P.
  cbn [length app Z.of_nat] in P. rewrite P. now split.
Qed.

(** X12.  The "mutate" button overwrites every cell of the jammer's table,
    cell [k] with [(r_k - 0.5) * 4] for the k-th draw it makes: the table
    keeps its length, every cell is finite (a NaN cell is repaired) and lies
    in [-2, 2), exactly one draw per cell is consumed, and the transmitter's
    table, the history, the counter and the jammer's rates are untouched. *)
Theorem mutateJammer_overwrites (H : Host) (s : State) (c : nat) :
  unit_tape H ->
  let s' := fst (mutateJammer H s c) in
  q (jam s')
  = map (fun k => Fin (mutated (Math_random H (c + k))))
        (seq 0 (length (q (jam s))))
  /\ length (q (jam s')) = length (q (jam s))
  /\ snd (mutateJammer H s c) = (c + length (q (jam s)))%nat
  /\ (forall i, (0 <= i < Z.of_nat (length (q (jam s))))%Z ->
        exists v, qread (q (jam s')) i = Fin v /\ - (2) <= v /\ v < 2)
  /\ q (tx s') = q (tx s) /\ history s' = history s /\ t s' = t s
  /\ lr (jam s') = lr (jam s) /\ eps (jam s') = eps (jam s).
Proof.
  intros U s'. destruct (mutateJammer_table H s c) as [Etbl Ecur].
  fold s' in Etbl.
  split; [exact Etbl|]. split.
  { rewrite Etbl, length_map, length_seq. reflexivity. }
  split; [exact Ecur|]. split.
  - intros i Hi. exists (mutated (Math_random H (c + Z.to_nat i))).
    split.
    + rewrite Etbl, qread_nth by lia.
      rewrite (nth_indep _ NaN (Fin (mutated (Math_random H (c + 0)))))
        by (rewrite length_map, length_seq; lia).
      rewrite (map_nth (fun k => Fin (mutated (Math_random H (c + k))))).
      rewrite seq_nth by lia. reflexivity.
    + destruct (U (c + Z.to_nat i)%nat) as [R0 R1].
      now apply mutated_range.
  - subst s'. unfold mutateJammer, bind, ret.
    destruct (perturb H (length (q (jam s))) 0 (q (jam s)) c) as [tbl c1].
    now repeat split.
Qed.

Lemma mutateJammer_overwrites_witness :
  unit_tape sampleHost
  /\ q (jam (fst (mutateJammer sampleHost
                    (fst (mutateJammer sampleHost state 0%nat)) 0%nat)))
     = []
  /\ exists v,
       qread (q (jam (fst (mutateJammer sampleHost warmState 7%nat)))) 143
       = Fin v /\ v == - 0.8.
Proof.
  split; [exact sampleHost_unit|].
  destruct (mutateJammer_overwrites sampleHost
              (fst (mutateJammer sampleHost state 0%nat)) 0%nat
              sampleHost_unit) as (E0 & _).
  split; [rewrite E0; reflexivity|].
  destruct (mutateJammer_overwrites sampleHost warmState 7%nat
              sampleHost_unit) as (E & _).
  eexists. split; [rewrite E; vm_compute; reflexivity|reflexivity].
Defined.

Lemma nth_map_seq (f : nat -> Q) (n j : nat) :
  (j < n)%nat -> nth j (map f (seq 0 n)) 0 = f j.
Proof.
  intros Hj.
  rewrite (nth_indep _ 0 (f 0%nat)) by (rewrite length_map, length_seq; lia).
  rewrite (map_nth f). now rewrite seq_nth.
Qed.

(** X13.  Right after a mutation in a state the page can reach, the greedy
    choice over the jammer's table is the index of the largest of the 144
    draws the mutation made, the first one if several are equally large. *)
Theorem mutate_then_greedy (H : Host) (s : State) (c : nat) :
  reachable H s ->
  exists r,
    argMax (q (jam (fst (mutateJammer H s c)))) = Z.of_nat r
    /\ (r < 144)%nat
    /\ (forall j, (j < 144)%nat ->
          Math_random H (c + j) <= Math_random H (c + r))
    /\ (forall j, (j < r)%nat ->
          Math_random H (c + j) < Math_random H (c + r)).
Proof.
  intros R.
  assert (L : length (q (jam s)) = 144%nat)
    by exact (proj2 (reachable_lengths H s R)).
  destruct (mutateJammer_table H s c) as [-> _]. rewrite L.
  set (f := fun k => mutated (Math_random H (c + k))).
  change (map (fun k => Fin (mutated (Math_random H (c + k)))) (seq 0 144))
    with (map (fun k => Fin (f k)) (seq 0 144)).
  rewrite <- (map_map f Fin).
  set (xs := map f (seq 0 144)).
  assert (Lx : length xs = 144%nat)
    by (unfold xs; now rewrite length_map, length_seq).
  assert (Ex : xs = [f 0%nat] ++ map f (seq 1 143)) by reflexivity.
  destruct (argMax_from_first_max xs (map f (seq 1 143)) [f 0%nat] 0%nat Ex)
    as (r & Er & Hr & Hmax & Hfirst).
  - simpl. lia.
  - intros j Hj. simpl in Hj. assert (j = 0%nat) by lia. subst.
    apply Qle_refl.
  - intros j Hj. lia.
  - exists r. rewrite Lx in *.
    assert (Ea : argMax (map Fin xs) = Z.of_nat r).
    { unfold argMax. rewrite Ex at 2. exact Er. }
    split; [exact Ea|]. split; [exact Hr|].
    assert (V : forall j, (j < 144)%nat -> nth j xs 0 = f j)
      by (intros j Hj; apply nth_map_seq; exact Hj).
    split.
    + intros j Hj. specialize (Hmax j Hj).
      rewrite (V j Hj), (V r Hr) in Hmax. unfold f, mutated in Hmax. lra.
    + intros j Hj. specialize (Hfirst j Hj).
      rewrite (V j), (V r Hr) in Hfirst by lia.
      unfold f, mutated in Hfirst. lra.
Qed.

Lemma mutate_then_greedy_witness :
  reachable sampleHost warmState
  /\ argMax (q (jam (fst (mutateJammer sampleHost warmState 7%nat)))) = 0%Z.
Proof.
  assert (R : reachable sampleHost warmState).
  { apply (reach_tick sampleHost (resetSimulation state) sampleSettings
             0%nat warmState 3%nat (reach_main sampleHost)).
    vm_compute. reflexivity. }
  split; [exact R|].
  destruct (mutate_then_greedy sampleHost warmState 7%nat R)
    as (r & E & _ & _ & Hfirst).
  rewrite E. destruct r as [|r]; [reflexivity|].
  assert (H0 : (0 < S r)%nat) by lia.
  specialize (Hfirst 0%nat H0). vm_compute in Hfirst. discriminate.
Defined.

(** ** Overlap and the physics of a tick *)

Lemma computeOverlap_value (a b : Z) (spanBins : Q) :
  (0 <= a < BINS)%Z ->
  (Z.abs (a - b) <= Qfloor (spanBins / 2))%Z ->
  computeOverlap a b spanBins
  == inject_Z (Qfloor (spanBins / 2) - Z.abs (a - b))
     / inject_Z (Qfloor (spanBins / 2) + 1).
Proof.
  intros Ha Hd.
  destruct (computeOverlap_inside a b spanBins Hd Ha) as (E & Hx0 & Hx1).
  rewrite E. set (half := Qfloor (spanBins / 2)) in *.
  assert (Hpos : 0 < inject_Z (half + 1)).
  { change 0 with (inject_Z 0). rewrite <- Zlt_Qlt. lia. }
  rewrite Q.max_r by lra.
  unfold Zminus. rewrite !inject_Z_plus, inject_Z_opp in *.
  change (inject_Z 1) with 1 in *. field. lra.
Qed.

Lemma computeOverlap_pos_iff (a b : Z) (spanBins : Q) :
  (0 <= a < BINS)%Z ->
  (0 < computeOverlap a b spanBins
   <-> (Z.abs (a - b) < Qfloor (spanBins / 2))%Z).
Proof.
  intros Ha.
  destruct (Z_le_gt_dec (Z.abs (a - b)) (Qfloor (spanBins / 2)))
    as [Hin|Hout].
  - rewrite (computeOverlap_value a b spanBins Ha Hin).
    assert (Hpos : 0 < inject_Z (Qfloor (spanBins / 2) + 1)).
    { change 0 with (inject_Z 0). rewrite <- Zlt_Qlt. lia. }
    rewrite (Qdiv_pos_iff _ _ Hpos).
    change 0 with (inject_Z 0). rewrite <- Zlt_Qlt. lia.
  - rewrite (computeOverlap_outside a b spanBins Hout).
    split; [intros A; exfalso; exact (Qlt_irrefl _ A)|lia].
Qed.

(** X14.  For bins on the channel the clamping of the jammed interval to the
    channel never matters: with d = |txBin - jamCenter| and
    half = floor(span / 2), the overlap is (half - d) / (half + 1) when
    d <= half and 0 otherwise; it is positive exactly when d < half (so it
    is 0 on the edge of the interval, and identically 0 when span < 2); and
    it is symmetric in the two bins. *)
Theorem computeOverlap_closed_form (txBin jamCenter : Z) (spanBins : Q) :
  (0 <= txBin < BINS)%Z -> (0 <= jamCenter < BINS)%Z ->
  let half := Qfloor (spanBins / 2) in
  let d := Z.abs (txBin - jamCenter) in
  ((d <= half)%Z ->
   computeOverlap txBin jamCenter spanBins
   == inject_Z (half - d) / inject_Z (half + 1))
  /\ ((half < d)%Z -> computeOverlap txBin jamCenter spanBins == 0)
  /\ (0 < computeOverlap txBin jamCenter spanBins <-> (d < half)%Z)
  /\ (spanBins < 2 -> computeOverlap txBin jamCenter spanBins == 0)
  /\ computeOverlap txBin jamCenter spanBins
     == computeOverlap jamCenter txBin spanBins.
Proof.
  intros Ht Hj half d.
  assert (Out : forall a b, (half < Z.abs (a - b))%Z ->
            computeOverlap a b spanBins == 0).
  { intros a b Hd. rewrite (computeOverlap_outside a b spanBins); [reflexivity|].
    fold half. lia. }
  pose proof (computeOverlap_pos_iff txBin jamCenter spanBins Ht) as Pos.
  fold half d in Pos.
  split; [exact (computeOverlap_value _ _ _ Ht)|]. split; [exact (Out _ _)|].
  split; [exact Pos|]. split.
  - intros Hs.
    assert (Hh : (half <= 0)%Z).
    { assert (A : spanBins / 2 < 1)
        by (apply Qlt_shift_div_r; [reflexivity|lra]).
      pose proof (Qfloor_le (spanBins / 2)) as Fl. fold half in Fl.
      assert (C : inject_Z half < inject_Z 1)
        by (eapply Qle_lt_trans; [exact Fl|exact A]).
      rewrite <- Zlt_Qlt in C. lia. }
    destruct (computeOverlap_bounds txBin jamCenter spanBins Ht) as [B0 _].
    apply Qle_antisym; [|exact B0].
    apply Qnot_lt_le. intros A. apply Pos in A. subst d. lia.
  - assert (Sym : Z.abs (txBin - jamCenter) = Z.abs (jamCenter - txBin))
      by lia.
    destruct (Z_le_gt_dec d half) as [Hin|Hout].
    + rewrite (computeOverlap_value _ _ _ Ht Hin),
        (computeOverlap_value jamCenter txBin _ Hj)
        by (rewrite <- Sym; exact Hin).
      now rewrite Sym.
    + rewrite (Out txBin jamCenter), (Out jamCenter txBin)
        by (rewrite <- ?Sym; fold d; lia).
      reflexivity.
Qed.

Lemma computeOverlap_closed_form_witness :
  (0 <= 14 < BINS)%Z /\ (0 <= 18 < BINS)%Z
  /\ computeOverlap 14 18 12 == 2 # 7
  /\ computeOverlap 14 18 8 == 0.
Proof.
  assert (Ha : (0 <= 14 < BINS)%Z) by (unfold BINS; lia).
  assert (Hb : (0 <= 18 < BINS)%Z) by (unfold BINS; lia).
  split; [exact Ha|]. split; [exact Hb|].
  destruct (computeOverlap_closed_form 14 18 12 Ha Hb) as (E12 & _).
  destruct (computeOverlap_closed_form 14 18 8 Ha Hb) as (_ & _ & P8 & _).
  split.
  - rewrite E12; [reflexivity|]. vm_compute. discriminate.
  - destruct (computeOverlap_bounds 14 18 8 Ha) as [B0 _].
    apply Qle_antisym; [|exact B0].
    apply Qnot_lt_le. intros A. apply P8 in A. vm_compute in A. discriminate.
Defined.

(** The locals of a completed tick, with what is known of the two actions. *)
Lemma tickLocals_actions (H : Host) (cfg : Settings) (s : State) (c : nat)
    (l : Locals) :
  tickLocals H cfg s c = Normal l ->
  exists ta ja i j,
    l = physics H cfg i ta j ja
    /\ (0 <= tx_fSlot ta < TX_FREQ_SLOTS)%Z /\ 0 < tx_p ta
    /\ (0 <= jam_fSlot ja < TX_FREQ_SLOTS)%Z /\ (2 <= jam_span ja <= 12)%Z
    /\ 0 < jam_p ja /\ jam_p ja <= 1.
Proof.
  intros E.
  destruct (tickLocals_inv H cfg s c l E) as (ta & ja & i & j & A & B & El).
  apply aget_In in A. apply aget_In in B.
  pose proof (TX_ACTIONS_slot ta A). pose proof (TX_ACTIONS_power_pos ta A).
  destruct (JAM_ACTIONS_facts ja B) as (? & ? & ? & ?).
  exists ta, ja, i, j. now repeat split.
Qed.

(** X15.  In a completed tick whose noise density, bandwidth and jammer power
    setting are not negative: the noise power is >= 0; the overlap factor is
    in [0, 1); the interference is between 0 and the jammer's power, which is
    at most jamMaxPower; the jamming intensity is in [0, 1); and the span
    used is at most both jamMaxSpan and 12 bins. *)
Theorem tick_physics_bounds (H : Host) (cfg : Settings) (s : State) (c : nat)
    (l : Locals) :
  tickLocals H cfg s c = Normal l ->
  0 <= cfg_noiseDensity cfg -> 0 <= cfg_bwMHz cfg ->
  0 <= cfg_jamMaxPower cfg ->
  0 <= noisePower l
  /\ 0 <= overlapFactor l /\ overlapFactor l < 1
  /\ 0 <= interference l /\ interference l <= jamPower l
  /\ jamPower l <= cfg_jamMaxPower cfg
  /\ 0 <= jammingIntensity l /\ jammingIntensity l < 1
  /\ jamSpanBins l <= cfg_jamMaxSpan cfg /\ jamSpanBins l <= 12.
Proof.
  intros E Hn Hb Hp.
  destruct (tickLocals_actions H cfg s c l E)
    as (ta & ja & i & j & -> & St & Pt & Sj & Sp & Pj0 & Pj1).
  cbn [physics noisePower overlapFactor interference jamPower
       jammingIntensity jamSpanBins].
  destruct (slot_bin_range _ St) as [_ Bt].
  destruct (computeOverlap_bounds (mapFreqSlotToBin (tx_fSlot ta))
              (mapFreqSlotToBin (jam_fSlot ja))
              (Qmin (inject_Z (jam_span ja)) (cfg_jamMaxSpan cfg)) Bt)
    as [O0 O1].
  set (o := computeOverlap _ _ _) in *.
  set (jp := cfg_jamMaxPower cfg * jam_p ja).
  set (np := cfg_noiseDensity cfg * (cfg_bwMHz cfg * 1000000)).
  assert (Hjp : 0 <= jp) by (apply Qmult_le_0_compat; lra).
  assert (Hnp : 0 <= np)
    by (apply Qmult_le_0_compat; [lra|apply Qmult_le_0_compat; lra]).
  assert (Hi0 : 0 <= jp * o) by (apply Qmult_le_0_compat; lra).
  assert (Hi1 : jp * o <= jp).
  { assert (A : 0 <= jp * (1 - o)) by (apply Qmult_le_0_compat; lra).
    lra. }
  assert (Hjm : jp <= cfg_jamMaxPower cfg).
  { assert (A : 0 <= cfg_jamMaxPower cfg * (1 - jam_p ja))
      by (apply Qmult_le_0_compat; lra).
    unfold jp. lra. }
  assert (Hden : 0 < jp * o + np + 1) by lra.
  split; [exact Hnp|]. split; [exact O0|]. split; [exact O1|].
  split; [exact Hi0|]. split; [exact Hi1|]. split; [exact Hjm|].
  split; [|split; [|split]].
  - apply Qle_shift_div_l; [exact Hden|lra].
  - apply Qlt_shift_div_r; [exact Hden|lra].
  - apply Q.le_min_r.
  - eapply Qle_trans; [apply Q.le_min_l|].
    change 12 with (inject_Z 12). rewrite <- Zle_Qle. lia.
Qed.

Lemma tick_physics_bounds_witness :
  exists l,
    tickLocals sampleHost sampleSettings warmState 3%nat = Normal l
    /\ 0 <= cfg_noiseDensity sampleSettings
    /\ 0 <= cfg_bwMHz sampleSettings
    /\ 0 <= cfg_jamMaxPower sampleSettings
    /\ 0 <= jammingIntensity l /\ jammingIntensity l < 1.
Proof.
  eexists. split; [vm_compute; reflexivity|].
  assert (Hn : 0 <= cfg_noiseDensity sampleSettings)
    by (vm_compute; discriminate).
  assert (Hb : 0 <= cfg_bwMHz sampleSettings) by (vm_compute; discriminate).
  assert (Hp : 0 <= cfg_jamMaxPower sampleSettings)
    by (vm_compute; discriminate).
  split; [exact Hn|]. split; [exact Hb|]. split; [exact Hp|].
  match goal with |- 0 <= jammingIntensity ?l /\ _ =>
    assert (E : tickLocals sampleHost sampleSettings warmState 3%nat
                = Normal l) by (vm_compute; reflexivity);
    destruct (tick_physics_bounds sampleHost sampleSettings warmState 3%nat
                l E Hn Hb Hp) as (_ & _ & _ & _ & _ & _ & J0 & J1 & _)
  end.
  split; [exact J0|exact J1].
Defined.

(** X16.  Which selections collide.  In a completed tick, with
    half = floor(jamSpanBins / 2) and ds the distance between the two
    frequency slots: the bins are four apart per slot, half is at most 6,
    and the overlap factor is positive exactly when 4 * ds < half.  So there
    is no overlap when the slots are two or more apart, none between
    neighbouring slots unless the span used is at least 10 bins, and none at
    all when jamMaxSpan is below 2. *)
Theorem tick_overlap_by_slots (H : Host) (cfg : Settings) (s : State)
    (c : nat) (l : Locals) :
  tickLocals H cfg s c = Normal l ->
  let half := Qfloor (jamSpanBins l / 2) in
  let ds := Z.abs (tx_fSlot (txAct l) - jam_fSlot (jamAct l)) in
  Z.abs (txBin l - jamCenter l) = (4 * ds)%Z
  /\ (half <= 6)%Z
  /\ (0 < overlapFactor l <-> (4 * ds < half)%Z)
  /\ ((2 <= ds)%Z -> overlapFactor l == 0)
  /\ ((1 <= ds)%Z -> jamSpanBins l < 10 -> overlapFactor l == 0)
  /\ (cfg_jamMaxSpan cfg < 2 -> overlapFactor l == 0).
Proof.
  intros E half ds.
  destruct (tickLocals_actions H cfg s c l E)
    as (ta & ja & i & j & El & St & _ & Sj & Sp & _ & _).
  subst l half ds.
  cbn [physics overlapFactor jamSpanBins txAct jamAct txBin jamCenter].
  destruct (slot_bin_range _ St) as [Et Bt].
  destruct (slot_bin_range _ Sj) as [Ej Bj].
  set (span := Qmin (inject_Z (jam_span ja)) (cfg_jamMaxSpan cfg)).
  set (half := Qfloor (span / 2)).
  set (ds := Z.abs (tx_fSlot ta - jam_fSlot ja)).
  assert (Ed : Z.abs (mapFreqSlotToBin (tx_fSlot ta)
                      - mapFreqSlotToBin (jam_fSlot ja)) = (4 * ds)%Z)
    by (rewrite Et, Ej; subst ds; lia).
  assert (Hs12 : span <= 12).
  { eapply Qle_trans; [apply Q.le_min_l|].
    change 12 with (inject_Z 12). rewrite <- Zle_Qle. lia. }
  assert (Floor_lt : forall k : Z, span < inject_Z (2 * k) -> (half < k)%Z).
  { intros k Hk.
    pose proof (Qfloor_le (span / 2)) as Fl. fold half in Fl.
    assert (A : span / 2 < inject_Z k).
    { apply Qlt_shift_div_r; [reflexivity|].
      rewrite inject_Z_mult in Hk. change (inject_Z 2) with 2 in Hk. lra. }
    assert (C : inject_Z half < inject_Z k)
      by (eapply Qle_lt_trans; [exact Fl|exact A]).
    now rewrite <- Zlt_Qlt in C. }
  assert (H6 : (half <= 6)%Z).
  { assert (A : (half < 7)%Z)
      by (apply Floor_lt; change (inject_Z (2 * 7)) with 14; lra).
    lia. }
  destruct (computeOverlap_bounds (mapFreqSlotToBin (tx_fSlot ta))
              (mapFreqSlotToBin (jam_fSlot ja)) span Bt) as [O0 _].
  pose proof (computeOverlap_pos_iff (mapFreqSlotToBin (tx_fSlot ta))
                (mapFreqSlotToBin (jam_fSlot ja)) span Bt) as Pos.
  fold half in Pos. rewrite Ed in Pos.
  assert (Zero : ~ (4 * ds < half)%Z ->
                 computeOverlap (mapFreqSlotToBin (tx_fSlot ta))
                   (mapFreqSlotToBin (jam_fSlot ja)) span == 0).
  { intros Hn. apply Qle_antisym; [|exact O0].
    apply Qnot_lt_le. intros A. apply Hn, Pos, A. }
  split; [exact Ed|]. split; [exact H6|]. split; [exact Pos|].
  split; [|split].
  - intros Hds. apply Zero. lia.
  - intros Hds Hsp. apply Zero.
    assert (A : (half < 5)%Z)
      by (apply Floor_lt; change (inject_Z (2 * 5)) with 10; exact Hsp).
    lia.
  - intros Hmax. apply Zero.
    assert (A : (half < 1)%Z).
    { apply Floor_lt. change (inject_Z (2 * 1)) with 2.
      eapply Qle_lt_trans; [apply Q.le_min_r|exact Hmax]. }
    subst ds. lia.
Qed.

Lemma tick_overlap_by_slots_witness :
  exists l,
    tickLocals sampleHost sampleSettings (resetSimulation state) 0%nat
    = Normal l
    /\ tx_fSlot (txAct l) = 3%Z /\ jam_fSlot (jamAct l) = 0%Z
    /\ overlapFactor l == 0.
Proof.
  eexists. split; [vm_compute; reflexivity|].
  split; [reflexivity|]. split; [reflexivity|].
  match goal with |- overlapFactor ?l == 0 =>
    assert (E : tickLocals sampleHost sampleSettings (resetSimulation state)
                  0%nat = Normal l) by (vm_compute; reflexivity);
    destruct (tick_overlap_by_slots sampleHost sampleSettings
                (resetSimulation state) 0%nat l E) as (_ & _ & _ & Far & _)
  end.
  apply Far. vm_compute. discriminate.
Defined.

(** X17.  A tick without overlap is a tick without jammer.  In a completed
    tick with non-negative noise density and bandwidth whose overlap factor
    is 0: the interference and the jamming intensity are 0, the SINR is
    signal / (noisePower + 1), the transmitter's reward is its throughput
    minus 0.02 times its power, and the jammer's reward is minus 0.08 times
    that throughput. *)
Theorem no_overlap_no_jamming (H : Host) (cfg : Settings) (s : State)
    (c : nat) (l : Locals) :
  tickLocals H cfg s c = Normal l ->
  0 <= cfg_noiseDensity cfg -> 0 <= cfg_bwMHz cfg ->
  overlapFactor l == 0 ->
  interference l == 0
  /\ jammingIntensity l == 0
  /\ sinr l == signal l / (noisePower l + 1)
  /\ txReward l == throughputMbps l - 0.02 * txPower l
  /\ jamReward l == - (0.08 * throughputMbps l).
Proof.
  intros E Hn Hb Ho.
  destruct (tickLocals_inv H cfg s c l E) as (ta & ja & i & j & _ & _ & ->).
  cbn [physics overlapFactor interference jammingIntensity sinr signal
       noisePower txReward jamReward throughputMbps txPower jamPower
       spectralEff bwHz] in *.
  set (o := computeOverlap _ _ _) in *.
  set (jp := cfg_jamMaxPower cfg * jam_p ja).
  set (np := cfg_noiseDensity cfg * (cfg_bwMHz cfg * 1000000)).
  set (lg := Math_log2 H _).
  set (sg := cfg_txMaxPower cfg * tx_p ta * dbToLin H (cfg_snrDb cfg)
             * MOD_EFF (tx_mod ta)).
  assert (Hnp : 0 <= np)
    by (apply Qmult_le_0_compat; [lra|apply Qmult_le_0_compat; lra]).
  assert (Ei : jp * o == 0) by (rewrite Ho; ring).
  clearbody lg sg. set (itf := jp * o) in *. clearbody itf.
  split; [exact Ei|]. split; [|split; [|split]].
  - rewrite Ei. field. lra.
  - rewrite Ei. field. lra.
  - rewrite Ho. ring.
  - rewrite Ei. field. lra.
Qed.

Lemma no_overlap_no_jamming_witness :
  exists l,
    tickLocals sampleHost sampleSettings (resetSimulation state) 0%nat
    = Normal l
    /\ 0 <= cfg_noiseDensity sampleSettings /\ 0 <= cfg_bwMHz sampleSettings
    /\ overlapFactor l == 0
    /\ txReward l == 139.6 /\ jamReward l == - 11.2.
Proof.
  eexists. split; [vm_compute; reflexivity|].
  assert (Hn : 0 <= cfg_noiseDensity sampleSettings)
    by (vm_compute; discriminate).
  assert (Hb : 0 <= cfg_bwMHz sampleSettings) by (vm_compute; discriminate).
  split; [exact Hn|]. split; [exact Hb|].
  match goal with |- overlapFactor ?l == 0 /\ _ =>
    assert (E : tickLocals sampleHost sampleSettings (resetSimulation state)
                  0%nat = Normal l) by (vm_compute; reflexivity);
    assert (Ho : overlapFactor l == 0) by reflexivity;
    destruct (no_overlap_no_jamming sampleHost sampleSettings
                (resetSimulation state) 0%nat l E Hn Hb Ho)
      as (_ & _ & _ & Rt & Rj)
  end.
  split; [exact Ho|]. split.
  - rewrite Rt. reflexivity.
  - rewrite Rj. reflexivity.
Defined.

(** ** Frozen ticks *)

(** X18.  With learning frozen a tick is greedy and draws exactly twice: the
    transmitter's index is [argMax] of its table and an adaptive jammer's is
    [argMax] of its own; and since nothing is learnt, the next frozen tick
    selects the same indices again. *)
Theorem frozen_ticks_repeat_greedy (H : Host) (cfg1 cfg2 : Settings)
    (s : State) (c : nat) :
  unit_tape H -> tables_fit s ->
  cfg_freeze cfg1 = true -> cfg_freeze cfg2 = true ->
  exists l1 s1 l2,
    tickLocals H cfg1 s c = Normal l1
    /\ stepSimulation H cfg1 s c = (Normal s1, S (S c))
    /\ tickLocals H cfg2 s1 (S (S c)) = Normal l2
    /\ txIdx l1 = argMax (q (tx s))
    /\ txIdx l2 = argMax (q (tx s))
    /\ (cfg_jamAdaptive cfg1 = true -> jamIdx l1 = argMax (q (jam s)))
    /\ (cfg_jamAdaptive cfg2 = true -> jamIdx l2 = argMax (q (jam s))).
Proof.
  intros U F Fz1 Fz2.
  destruct (tick_selections H cfg1 s c U F) as (l1 & E1 & Ei1 & Ej1).
  rewrite Fz1 in E1, Ei1, Ej1.
  rewrite pickAction_greedy in E1, Ei1, Ej1 by exact U.
  cbn [fst snd] in E1, Ei1, Ej1.
  assert (Ec1 : snd ((if cfg_jamAdaptive cfg1
                      then pickAction H (q (jam s)) 0
                      else randomIndex H (length JAM_ACTIONS)) (S c))
                = S (S c)).
  { destruct (cfg_jamAdaptive cfg1).
    - now rewrite pickAction_greedy by exact U.
    - reflexivity. }
  rewrite Ec1 in E1.
  pose proof (stepSimulation_of_locals H cfg1 s c _ l1 E1) as St1.
  set (s1 := record H (learn (applySettings cfg1 s) l1) l1) in *.
  assert (Q1 : q (tx s1) = q (tx s) /\ q (jam s1) = q (jam s))
    by exact (frozen_tick_tables H cfg1 s s1 c _ Fz1 St1).
  destruct Q1 as [Qt Qj].
  assert (F1 : tables_fit s1) by (unfold tables_fit; now rewrite Qt, Qj).
  destruct (tick_selections H cfg2 s1 (S (S c)) U F1) as (l2 & E2 & Ei2 & Ej2).
  rewrite Fz2 in Ei2, Ej2. rewrite Qt in Ei2. rewrite ?Qj in Ej2.
  rewrite pickAction_greedy in Ei2, Ej2 by exact U.
  cbn [fst snd] in Ei2, Ej2.
  exists l1, s1, l2.
  split; [exact (tickLocals_of_step H cfg1 s c _ l1 E1)|].
  split; [exact St1|].
  split; [exact (tickLocals_of_step H cfg2 s1 _ _ l2 E2)|].
  split; [exact Ei1|]. split; [exact Ei2|]. split.
  - intros Ad. rewrite Ad in Ej1.
    now rewrite pickAction_greedy in Ej1 by exact U.
  - intros Ad. rewrite Ad in Ej2.
    now rewrite pickAction_greedy in Ej2 by exact U.
Qed.

Lemma frozen_ticks_repeat_greedy_witness :
  unit_tape sampleHost /\ tables_fit warmState
  /\ cfg_freeze frozenSettings = true
  /\ exists l1 s1 l2,
       tickLocals sampleHost frozenSettings warmState 3%nat = Normal l1
       /\ stepSimulation sampleHost frozenSettings warmState 3%nat
          = (Normal s1, 5%nat)
       /\ tickLocals sampleHost frozenSettings s1 5%nat = Normal l2
       /\ txIdx l1 = 32%Z /\ txIdx l2 = 32%Z.
Proof.
  assert (F : tables_fit warmState)
    by (unfold tables_fit; vm_compute; split; apply le_n).
  split; [exact sampleHost_unit|]. split; [exact F|].
  split; [reflexivity|].
  destruct (frozen_ticks_repeat_greedy sampleHost frozenSettings
              frozenSettings warmState 3%nat sampleHost_unit F eq_refl
              eq_refl)
    as (l1 & s1 & l2 & A & B & C & E1 & E2 & _).
  exists l1, s1, l2. split; [exact A|]. split; [exact B|].
  split; [exact C|]. split.
  - rewrite E1. vm_compute. reflexivity.
  - rewrite E2. vm_compute. reflexivity.
Defined.

(** ** What the renderers show *)

Lemma rev_seq (a k : nat) :
  rev (seq a k) = map (fun i => (a + k - 1 - i)%nat) (seq 0 k).
Proof.
  revert a. induction k as [|k IH]; intros a; [reflexivity|].
  rewrite seq_S, rev_app_distr. cbn [rev app seq map].
  f_equal; [lia|].
  rewrite IH, <- seq_shift, map_map. apply map_ext_in.
  intros i Hi. apply in_seq in Hi. lia.
Qed.

(** X19.  The timeline shows the newest ticks first.  In every state the page
    can reach, with n the tick counter, the rows of [renderTimeline] are the
    min(n, 20) most recent history entries, for the ticks n-1, n-2, ... in
    this order. *)
Theorem timeline_newest_first (H : Host) (s : State) :
  reachable H s ->
  exists n,
    t s = Z.of_nat n
    /\ map h_t (timelineRows s)
       = map (fun i => Z.of_nat (n - 1 - i)) (seq 0 (Nat.min n 20))
    /\ length (timelineRows s) = Nat.min n 20.
Proof.
  intros R.
  destruct (reachable_ticks H s R) as (n & Ht & Hw). exists n. split; [exact Ht|].
  assert (Hlen : length (history s) = Nat.min n HISTORY_POINTS).
  { unfold ticks in Hw. now rewrite <- (length_map h_t), Hw, window_length. }
  assert (E : map h_t (timelineRows s)
              = map (fun i => Z.of_nat (n - 1 - i)) (seq 0 (Nat.min n 20))).
  { unfold timelineRows, sliceLast. rewrite map_rev, <- skipn_map.
    fold (ticks s). rewrite Hw, Hlen. unfold window.
    rewrite skipn_map, skipn_seq, <- map_rev, rev_seq, map_map.
    unfold HISTORY_POINTS.
    replace (Nat.min n 180 - (Nat.min n 180 - 20))%nat with (Nat.min n 20)
      by lia.
    apply map_ext_in. intros i Hi. apply in_seq in Hi. f_equal. lia. }
  split; [exact E|].
  rewrite <- (length_map h_t), E, length_map, length_seq. reflexivity.
Qed.

Lemma timeline_newest_first_witness :
  reachable sampleHost warmState /\ map h_t (timelineRows warmState) = [0%Z].
Proof.
  assert (R : reachable sampleHost warmState).
  { apply (reach_tick sampleHost (resetSimulation state) sampleSettings
             0%nat warmState 3%nat (reach_main sampleHost)).
    vm_compute. reflexivity. }
  split; [exact R|].
  destruct (timeline_newest_first sampleHost warmState R) as (n & Ht & E & _).
  change (t warmState) with 1%Z in Ht.
  assert (En : n = 1%nat) by lia. subst n.
  rewrite E. reflexivity.
Defined.

Lemma fromTo_In (start end_ b : Z) :
  In b (fromTo start end_) <-> (start <= b <= end_)%Z.
Proof.
  unfold fromTo. rewrite in_map_iff. split.
  - intros (k & <- & Hk). apply in_seq in Hk. lia.
  - intros Hb. exists (Z.to_nat (b - start)). split; [lia|].
    apply in_seq. lia.
Qed.

(** X20.  The jammer heat of [drawSpectrum]: a bin is painted exactly when it
    is on the channel and within floor(span/2) bins of the jammer's centre;
    its alpha is 0.1 + 0.55 * overlap, a value in [0.1, 0.65); and the two
    bins on the edge of the interval are painted with the bare 0.1, their
    overlap being 0. *)
Theorem spectrumHeat_bins (jamCenter : Z) (span : Q) (b : Z) (a : Q) :
  let half := Qfloor (span / 2) in
  (In (b, a) (spectrumHeat jamCenter span) <->
   (0 <= b < BINS)%Z /\ (Z.abs (b - jamCenter) <= half)%Z
   /\ a = 0.1 + computeOverlap b jamCenter span * 0.55)
  /\ (In (b, a) (spectrumHeat jamCenter span) ->
      0.1 <= a /\ a < 0.65
      /\ (Z.abs (b - jamCenter) = half -> a == 0.1)).
Proof.
  intros half.
  assert (M : In (b, a) (spectrumHeat jamCenter span) <->
              (0 <= b < BINS)%Z /\ (Z.abs (b - jamCenter) <= half)%Z
              /\ a = 0.1 + computeOverlap b jamCenter span * 0.55).
  { unfold spectrumHeat. fold half. rewrite in_flat_map. split.
    - intros (b' & Hr & Hin). apply fromTo_In in Hr.
      destruct (Z.ltb_spec b' 0); [contradiction|].
      destruct (Z.geb_spec b' BINS); [contradiction|].
      cbn [orb] in Hin. destruct Hin as [Hin|[]].
      injection Hin as <- <-. repeat split; lia.
    - intros (Hb & Hd & ->). exists b. split; [apply fromTo_In; lia|].
      destruct (Z.ltb_spec b 0); [lia|].
      destruct (Z.geb_spec b BINS); [lia|]. now left. }
  split; [exact M|].
  intros Hin. apply M in Hin. destruct Hin as (Hb & Hd & ->).
  destruct (computeOverlap_bounds b jamCenter span Hb) as [O0 O1].
  split; [lra|]. split; [lra|].
  intros He.
  assert (Z0 : computeOverlap b jamCenter span == 0).
  { apply Qle_antisym; [|exact O0]. apply Qnot_lt_le. intros A.
    apply (computeOverlap_pos_iff b jamCenter span Hb) in A.
    fold half in A. lia. }
  rewrite Z0. ring.
Qed.

Lemma spectrumHeat_bins_witness :
  In (2%Z, 0.1 + computeOverlap 2 2 4 * 0.55) (spectrumHeat 2 4)
  /\ map fst (spectrumHeat 2 4) = [0; 1; 2; 3; 4]%Z
  /\ 0.1 + computeOverlap 2 2 4 * 0.55 < 0.65.
Proof.
  assert (A : In (2%Z, 0.1 + computeOverlap 2 2 4 * 0.55) (spectrumHeat 2 4)).
  { apply (spectrumHeat_bins 2 4 2 (0.1 + computeOverlap 2 2 4 * 0.55)).
    split; [unfold BINS; lia|]. split; [vm_compute; discriminate|reflexivity]. }
  split; [exact A|]. split; [reflexivity|].
  exact (proj1 (proj2 (proj2 (spectrumHeat_bins 2 4 2 _) A))).
Defined.

(** X21.  The white highlight of [drawSpectrum] and the overlap factor do not
    agree on the edge.  For a transmitter bin on the channel the highlight is
    painted exactly when the bin is within floor(span/2) of the jammer's
    centre; it is painted whenever the overlap factor is positive, and also
    on the two edge bins, where the overlap factor is 0. *)
Theorem spectrumHighlight_vs_overlap (txBin jamCenter : Z) (span : Q) :
  (0 <= txBin < BINS)%Z ->
  let half := Qfloor (span / 2) in
  (spectrumHighlight txBin jamCenter span = true
   <-> (Z.abs (txBin - jamCenter) <= half)%Z)
  /\ (0 < computeOverlap txBin jamCenter span ->
      spectrumHighlight txBin jamCenter span = true)
  /\ (Z.abs (txBin - jamCenter) = half ->
      spectrumHighlight txBin jamCenter span = true
      /\ computeOverlap txBin jamCenter span == 0).
Proof.
  intros Hb half.
  assert (M : spectrumHighlight txBin jamCenter span = true
              <-> (Z.abs (txBin - jamCenter) <= half)%Z).
  { unfold spectrumHighlight. fold half.
    rewrite andb_true_iff, Z.geb_le, Z.leb_le. lia. }
  pose proof (computeOverlap_pos_iff txBin jamCenter span Hb) as Pos.
  fold half in Pos.
  split; [exact M|]. split.
  - intros A. apply M. apply Pos in A. lia.
  - intros He. split; [apply M; lia|].
    destruct (computeOverlap_bounds txBin jamCenter span Hb) as [O0 _].
    apply Qle_antisym; [|exact O0]. apply Qnot_lt_le. intros A.
    apply Pos in A. lia.
Qed.

Lemma spectrumHighlight_vs_overlap_witness :
  (0 <= 14 < BINS)%Z
  /\ spectrumHighlight 14 18 8 = true /\ computeOverlap 14 18 8 == 0.
Proof.
  assert (Hb : (0 <= 14 < BINS)%Z) by (unfold BINS; lia).
  split; [exact Hb|].
  destruct (spectrumHighlight_vs_overlap 14 18 8 Hb) as (_ & _ & Edge).
  apply Edge. reflexivity.
Defined.

(** ** Draws of a tick *)

Lemma pickAction_draws (H : Host) (tbl : list Number) (e : Q) (c : nat) :
  (S c <= snd (pickAction H tbl e c) <= S (S c))%nat.
Proof.
  unfold pickAction, bind, random.
  destruct (Qltb (Math_random H c) e); cbn; lia.
Qed.

Lemma pickAction_draws_split (H : Host) (tbl : list Number) (e : Q) (c : nat) :
  (e <= Math_random H c -> snd (pickAction H tbl e c) = S c)
  /\ (Math_random H c < e -> snd (pickAction H tbl e c) = S (S c)).
Proof.
  unfold pickAction, bind, random, Qltb.
  destruct (Qlt_le_dec (Math_random H c) e) as [Hlt|Hle]; split; intros A;
    try reflexivity; exfalso.
  - exact (Qlt_not_le _ _ Hlt A).
  - exact (Qlt_not_le _ _ A Hle).
Qed.

(** X22.  A tick makes between two and four draws from the random source, in
    this order: one or two for the transmitter's selection, then one or two
    for an adaptive jammer's and exactly one for a non-adaptive jammer's; a
    frozen tick makes exactly two.  Nothing else in the tick draws. *)
Theorem tick_draws (H : Host) (cfg : Settings) (s : State) (c : nat) :
  unit_tape H -> tables_fit s ->
  exists s' c',
    stepSimulation H cfg s c = (Normal s', c')
    /\ (c + 2 <= c' <= c + 4)%nat
    /\ (cfg_jamAdaptive cfg = false -> (c' <= c + 3)%nat)
    /\ (cfg_freeze cfg = true -> c' = (c + 2)%nat)
    /\ (cfg_freeze cfg = false -> cfg_jamAdaptive cfg = false ->
        cfg_eps cfg <= Math_random H c -> c' = (c + 2)%nat)
    /\ (cfg_freeze cfg = false -> cfg_jamAdaptive cfg = false ->
        Math_random H c < cfg_eps cfg -> c' = (c + 3)%nat).
Proof.
  intros U F.
  destruct (tick_selections H cfg s c U F) as (l & E & _ & _).
  pose proof (stepSimulation_of_locals H cfg s c _ l E) as St.
  eexists. eexists. split; [exact St|].
  pose proof (pickAction_draws H (q (tx s))
                (if cfg_freeze cfg then 0 else cfg_eps cfg) c) as Dt.
  set (c1 := snd (pickAction H (q (tx s))
                    (if cfg_freeze cfg then 0 else cfg_eps cfg) c)) in *.
  pose proof (pickAction_draws H (q (jam s))
                (if cfg_freeze cfg then 0 else eps (jam s)) c1) as Dj.
  assert (Dr : snd (randomIndex H (length JAM_ACTIONS) c1) = S c1)
    by reflexivity.
  split; [destruct (cfg_jamAdaptive cfg); lia|].
  split; [intros Ad; rewrite Ad; lia|].
  split; [|split].
  - intros Fz. subst c1. rewrite Fz in *.
    rewrite pickAction_greedy in * by exact U. cbn [snd] in *.
    destruct (cfg_jamAdaptive cfg); [|rewrite Dr; lia].
    rewrite pickAction_greedy by exact U. cbn [snd]. lia.
  - intros Fz Ad Hge. rewrite Ad, Dr. subst c1. rewrite Fz.
    rewrite (proj1 (pickAction_draws_split H (q (tx s)) (cfg_eps cfg) c) Hge).
    lia.
  - intros Fz Ad Hlt. rewrite Ad, Dr. subst c1. rewrite Fz.
    rewrite (proj2 (pickAction_draws_split H (q (tx s)) (cfg_eps cfg) c) Hlt).
    lia.
Qed.

Lemma tick_draws_witness :
  unit_tape sampleHost /\ tables_fit (resetSimulation state)
  /\ exists s',
       stepSimulation sampleHost randomJammerSettings (resetSimulation state)
         0%nat = (Normal s', 3%nat).
Proof.
  assert (F : tables_fit (resetSimulation state))
    by (unfold tables_fit; vm_compute; split; apply le_n).
  split; [exact sampleHost_unit|]. split; [exact F|].
  destruct (tick_draws sampleHost randomJammerSettings (resetSimulation state)
              0%nat sampleHost_unit F)
    as (s' & c' & E & _ & _ & _ & _ & X).
  exists s'. rewrite E. f_equal. apply X; reflexivity.
Defined.

(** ** Learning rates *)

(** C10.  In every tick from a state the page can reach, with any settings
    and with learning not frozen: a selected transmitter cell holding the
    number x becomes x + learningRate * (txReward - x) with the learningRate
    of the settings; a selected jammer cell holding y becomes
    y + 0.14 * (jamReward - y) with the fixed rate 0.14, when the jammer is
    adaptive; a cell holding NaN keeps NaN; no other cell is written.  The
    jammer's table is unchanged when the jammer is not adaptive, and both
    tables when learning is frozen.  The jammer's rate is still 0.14 after
    the tick and the transmitter's is the configured one, and changing only
    the configured learningRate changes nothing in the jammer's table. *)
Theorem learning_rates (H : Host) (cfg : Settings) (s : State) (c : nat) :
  unit_tape H -> reachable H s ->
  exists l s' c',
    tickLocals H cfg s c = Normal l
    /\ stepSimulation H cfg s c = (Normal s', c')
    /\ (forall x, qread (q (tx s)) (txIdx l) = Fin x ->
        cfg_freeze cfg = false ->
        qread (q (tx s')) (txIdx l)
        = Fin (x + cfg_lr cfg * (txReward l - x))
        /\ q (tx s')
           = qwrite (q (tx s)) (txIdx l)
               (Fin (x + cfg_lr cfg * (txReward l - x))))
    /\ (forall y, qread (q (jam s)) (jamIdx l) = Fin y ->
        cfg_freeze cfg = false -> cfg_jamAdaptive cfg = true ->
        qread (q (jam s')) (jamIdx l)
        = Fin (y + 0.14 * (jamReward l - y))
        /\ q (jam s')
           = qwrite (q (jam s)) (jamIdx l)
               (Fin (y + 0.14 * (jamReward l - y))))
    /\ (qread (q (tx s)) (txIdx l) = NaN -> cfg_freeze cfg = false ->
        q (tx s') = qwrite (q (tx s)) (txIdx l) NaN)
    /\ (qread (q (jam s)) (jamIdx l) = NaN ->
        cfg_freeze cfg = false -> cfg_jamAdaptive cfg = true ->
        q (jam s') = qwrite (q (jam s)) (jamIdx l) NaN)
    /\ (cfg_freeze cfg = true ->
        q (tx s') = q (tx s) /\ q (jam s') = q (jam s))
    /\ (cfg_jamAdaptive cfg = false -> q (jam s') = q (jam s))
    /\ lr (jam s') = 0.14
    /\ lr (tx s') = cfg_lr cfg
    /\ (forall z, exists s'',
          stepSimulation H (with_lr cfg z) s c = (Normal s'', c')
          /\ q (jam s'') = q (jam s')).
Proof.
  intros U R.
  destruct (reachable_inv H s R) as [F [_ Elr]].
  destruct (stepLocals_normal H cfg (applySettings cfg s) c U F)
    as (l & c' & E).
  destruct (stepLocals_inv H cfg _ c c' l E) as (ta & ja & Rt & Rj & El & _).
  apply aget_range in Rt. apply aget_range in Rj.
  assert (Ri : (0 <= txIdx l)%Z) by (rewrite El, physics_txIdx; lia).
  assert (Rjx : (0 <= jamIdx l)%Z) by (rewrite El, physics_jamIdx; lia).
  exists l, (record H (learn (applySettings cfg s) l) l), c'.
  split; [exact (tickLocals_of_step H cfg s c c' l E)|].
  split; [exact (stepSimulation_of_locals H cfg s c c' l E)|].
  assert (Etx : q (tx (record H (learn (applySettings cfg s) l) l))
    = (if cfg_freeze cfg then q (tx s)
       else qwrite (q (tx s)) (txIdx l)
              (td (cfg_lr cfg) (txReward l) (qread (q (tx s)) (txIdx l))))).
  { cbn [record tx set_lastAction q]. unfold learn.
    cbn [applySettings freezeLearning tx q lr].
    destruct (cfg_freeze cfg); reflexivity. }
  assert (Ejam : forall z,
    q (jam (record H (learn (applySettings (with_lr cfg z) s) l) l))
    = (if cfg_freeze cfg then q (jam s)
       else if cfg_jamAdaptive cfg
            then qwrite (q (jam s)) (jamIdx l)
                   (td 0.14 (jamReward l) (qread (q (jam s)) (jamIdx l)))
            else q (jam s))).
  { intros z. cbn [record jam set_lastAction q]. unfold learn.
    cbn [applySettings with_lr freezeLearning jamAdaptive jam cfg_freeze
         cfg_jamAdaptive].
    destruct (cfg_freeze cfg); [reflexivity|]. cbn [jam].
    destruct (cfg_jamAdaptive cfg); [|reflexivity].
    cbn [set_q q]. now rewrite Elr. }
  assert (Ejam0 : q (jam (record H (learn (applySettings cfg s) l) l))
    = (if cfg_freeze cfg then q (jam s)
       else if cfg_jamAdaptive cfg
            then qwrite (q (jam s)) (jamIdx l)
                   (td 0.14 (jamReward l) (qread (q (jam s)) (jamIdx l)))
            else q (jam s)))
    by exact (Ejam (cfg_lr cfg)).
  split.
  { intros x Ex Fz. rewrite Etx, Fz, Ex. cbn [td].
    split; [apply qread_qwrite; exact Ri|reflexivity]. }
  split.
  { intros y Ey Fz Ad. rewrite Ejam0, Fz, Ad, Ey. cbn [td].
    split; [apply qread_qwrite; exact Rjx|reflexivity]. }
  split.
  { intros Ex Fz. rewrite Etx, Fz, Ex. reflexivity. }
  split.
  { intros Ey Fz Ad. rewrite Ejam0, Fz, Ad, Ey. reflexivity. }
  split.
  { intros Fz. rewrite Etx, Ejam0, Fz. now split. }
  split.
  { intros Ad. rewrite Ejam0, Ad. now destruct (cfg_freeze cfg). }
  split.
  { cbn [record jam set_lastAction lr].
    destruct (learn_jam_rates (applySettings cfg s) l) as [_ ->].
    exact Elr. }
  split.
  { cbn [record tx set_lastAction lr]. unfold learn.
    cbn [applySettings freezeLearning tx].
    destruct (cfg_freeze cfg); reflexivity. }
  intros z.
  exists (record H (learn (applySettings (with_lr cfg z) s) l) l). split.
  - apply stepSimulation_of_locals. rewrite stepLocals_lr. exact E.
  - rewrite (Ejam z). symmetry. exact Ejam0.
Qed.

Lemma learning_rates_witness :
  unit_tape sampleHost /\ reachable sampleHost (resetSimulation state)
  /\ exists l s' c',
       tickLocals sampleHost sampleSettings (resetSimulation state) 0%nat
       = Normal l
       /\ stepSimulation sampleHost sampleSettings (resetSimulation state)
            0%nat = (Normal s', c')
       /\ cfg_lr sampleSettings = 0.18
       /\ txIdx l = 32%Z /\ txReward l == 139.6
       /\ jamIdx l = 0%Z /\ jamReward l == - 11.2
       /\ qread (q (tx (resetSimulation state))) 32 = Fin 0
       /\ qread (q (jam (resetSimulation state))) 0 = Fin 0
       /\ (exists v, qread (q (tx s')) 32 = Fin v /\ v == 25.128)
       /\ (exists w, qread (q (jam s')) 0 = Fin w /\ w == - 1.568).
Proof.
  split; [exact sampleHost_unit|]. split; [apply reach_main|].
  destruct (learning_rates sampleHost sampleSettings (resetSimulation state)
              0%nat sampleHost_unit (reach_main sampleHost))
    as (l & s' & c' & A & B & Htx & Hjam & _).
  exists l, s', c'. split; [exact A|]. split; [exact B|].
  split; [reflexivity|].
  vm_compute in A. injection A as <-.
  split; [reflexivity|]. split; [reflexivity|].
  split; [reflexivity|]. split; [reflexivity|].
  split; [reflexivity|]. split; [reflexivity|]. split.
  - eexists. split; [exact (proj1 (Htx 0 eq_refl eq_refl))|reflexivity].
  - eexists. split; [exact (proj1 (Hjam 0 eq_refl eq_refl eq_refl))|].
    reflexivity.
Defined.

(** ** A tick before any reset *)

Lemma stepSimulationDom_normal (H : Host) (cfg : Settings) (s s' : State)
    (c c' : nat) :
  stepSimulation H cfg s c = (Normal s', c') ->
  stepSimulationDom H (Some cfg) s c = ((Normal tt, s'), c').
Proof.
  intros E. unfold stepSimulationDom, readSettings, bind, ret.
  now rewrite E.
Qed.

(** A tick on the literal initial state, once the settings are read. *)
Lemma empty_tables_tick (H : Host) (cfg : Settings) (c : nat) :
  unit_tape H ->
  let c1 := snd (pickAction H []
                   (if cfg_freeze cfg then 0 else cfg_eps cfg) c) in
  exists l s' c',
    tickLocals H cfg state c = Normal l
    /\ stepSimulation H cfg state c = (Normal s', c')
    /\ txIdx l = 0%Z
    /\ (cfg_jamAdaptive cfg = true -> jamIdx l = 0%Z)
    /\ (cfg_jamAdaptive cfg = false ->
        jamIdx l = fst (randomIndex H (length JAM_ACTIONS) c1))
    /\ t s' = 1%Z
    /\ ticks s' = [0%Z]
    /\ q (tx s') = (if cfg_freeze cfg then [] else [NaN])
    /\ q (jam s')
       = (if cfg_freeze cfg then []
          else if cfg_jamAdaptive cfg then [NaN] else []).
Proof.
  intros U c1.
  destruct (tick_selections H cfg state c U state_fit) as (l & E & Ei & Ej).
  cbn [state tx jam q eps] in Ei, Ej. fold c1 in Ej.
  rewrite pickAction_empty in Ei.
  exists l, (record H (learn (applySettings cfg state) l) l).
  eexists.
  split; [exact (tickLocals_of_step H cfg state c _ l E)|].
  split; [exact (stepSimulation_of_locals H cfg state c _ l E)|].
  split; [exact Ei|].
  split.
  { intros Ad. rewrite Ad in Ej. now rewrite pickAction_empty in Ej. }
  split.
  { intros Ad. now rewrite Ad in Ej. }
  destruct (learn_frame (applySettings cfg state) l) as [Et Eh].
  split; [cbn [record t]; now rewrite Et|].
  split; [unfold ticks; cbn [record history]; now rewrite Eh, Et|].
  cbn [record tx jam set_lastAction q].
  unfold learn. cbn [applySettings freezeLearning jamAdaptive tx jam q state].
  destruct (cfg_freeze cfg); [now split|].
  cbn [tx jam set_q q]. rewrite Ei. split; [reflexivity|].
  destruct (cfg_jamAdaptive cfg) eqn:Ad; [|reflexivity].
  cbn [set_q q]. rewrite Ej, pickAction_empty. reflexivity.
Qed.

(** C9, as the code has it.  The tick has no check of the value tables.
    - While the DOM references are not set up (before main), the tick throws
      a TypeError at its first line, readSettings(), with the state untouched
      and no random number drawn.
    - In the page no tick meets empty tables: main sets up the references and
      resets back to back, and from then on the tables have their 108 and
      144 cells before and after every tick, and every tick completes.
    - On empty tables with the DOM references in place, a state that only a
      harness can build, the tick does not fail: the transmitter's selection
      gives index 0 and so does an adaptive jammer's, a non-adaptive jammer's
      is Math.floor(Math.random() * 144) as always; the tick completes,
      records the outcome of tick 0 and advances the counter to 1; unless
      learning is frozen the transmitter's table becomes the one-cell table
      [NaN], and so does the jammer's when it is adaptive. *)
Theorem tick_before_reset (H : Host) (c : nat) :
  unit_tape H ->
  stepSimulationDom H None state c = ((TypeError, state), c)
  /\ (forall dom s, page H dom s ->
        (dom = None /\ s = state
         /\ stepSimulationDom H dom s c = ((TypeError, s), c))
        \/ (exists cfg s' c',
              dom = Some cfg
              /\ length (q (tx s)) = length TX_ACTIONS
              /\ length (q (jam s)) = length JAM_ACTIONS
              /\ stepSimulationDom H dom s c = ((Normal tt, s'), c')
              /\ length (q (tx s')) = length TX_ACTIONS
              /\ length (q (jam s')) = length JAM_ACTIONS))
  /\ (forall cfg,
        let c1 := snd (pickAction H []
                         (if cfg_freeze cfg then 0 else cfg_eps cfg) c) in
        exists l s' c',
          tickLocals H cfg state c = Normal l
          /\ stepSimulationDom H (Some cfg) state c = ((Normal tt, s'), c')
          /\ txIdx l = 0%Z
          /\ (cfg_jamAdaptive cfg = true -> jamIdx l = 0%Z)
          /\ (cfg_jamAdaptive cfg = false ->
              jamIdx l = fst (randomIndex H (length JAM_ACTIONS) c1))
          /\ t s' = 1%Z
          /\ ticks s' = [0%Z]
          /\ q (tx s') = (if cfg_freeze cfg then [] else [NaN])
          /\ q (jam s')
             = (if cfg_freeze cfg then []
                else if cfg_jamAdaptive cfg then [NaN] else [])).
Proof.
  intros U. split; [reflexivity|]. split.
  - intros dom s P. destruct P as [|cfg s R].
    + left. now repeat split.
    + right.
      destruct (reachable_inv H s R) as [F _].
      destruct (reachable_lengths H s R) as [Ltx Ljam].
      destruct (stepSimulation_normal H cfg s c U F) as (s' & c' & E & _).
      destruct (reachable_lengths H s' (reach_tick H s cfg c s' c' R E))
        as [Ltx' Ljam'].
      exists cfg, s', c'. split; [reflexivity|].
      split; [exact Ltx|]. split; [exact Ljam|].
      split; [exact (stepSimulationDom_normal H cfg s s' c c' E)|].
      split; [exact Ltx'|exact Ljam'].
  - intros cfg c1.
    destruct (empty_tables_tick H cfg c U)
      as (l & s' & c' & A & B & Rest).
    exists l, s', c'. split; [exact A|].
    split; [exact (stepSimulationDom_normal H cfg state s' c c' B)|].
    exact Rest.
Qed.

Lemma tick_before_reset_witness :
  unit_tape sampleHost
  /\ stepSimulationDom sampleHost None state 0%nat
     = ((TypeError, state), 0%nat)
  /\ exists s' c',
       stepSimulationDom sampleHost (Some randomJammerSettings) state 0%nat
       = ((Normal tt, s'), c')
       /\ q (tx s') = [NaN] /\ q (jam s') = [].
Proof.
  split; [exact sampleHost_unit|].
  destruct (tick_before_reset sampleHost 0%nat sampleHost_unit)
    as (Thrown & _ & Harness).
  split; [exact Thrown|].
  destruct (Harness randomJammerSettings)
    as (l & s' & c' & _ & B & _ & _ & _ & _ & _ & Etx & Ejam).
  exists s', c'. split; [exact B|]. split; [exact Etx|exact Ejam].
Defined.

(** C9 as the specification words it fails: with the DOM references in place
    the tick on the initial state, whose tables are empty, does not end in an
    error; it returns normally and leaves NaN in both tables. *)
Lemma tick_before_reset_no_error :
  exists s',
    stepSimulationDom sampleHost (Some sampleSettings) state 0%nat
    = ((Normal tt, s'), 3%nat)
    /\ q (tx state) = [] /\ q (jam state) = []
    /\ q (tx s') = [NaN] /\ q (jam s') = [NaN]
    /\ t s' = 1%Z.
Proof.
  eexists. split; [vm_compute; reflexivity|].
  repeat split; reflexivity.
Qed.
